(** * The query engine of the record browser (backend/server.js)

    The backend answers GET /api/records by running three pure stages over
    the employee snapshot: [applyFilters], then [applySort], then
    [paginate].  This file embeds the three stages, the request handler that
    chains them and a client that reads page after page, and proves the
    properties the specification states about them.  It also embeds the
    decoding of the query, the handlers of the preset store and the
    table, sort and filter state of the frontend, with properties read
    off the code.

    Modelling choices.
    - A record is a JSON object: a finite map from its own property
      names to values.  A name that is not an own property reads as the
      property inherited from Object.prototype if there is one, and as
      [VUndefined] otherwise.
    - A number is a rational or NaN.  Every finite double is a rational,
      and the sign of a difference of two finite doubles is the sign of
      their exact difference, so comparisons and the comparator of the sort
      are exact.  Infinities are outside the model.
    - Page index and page size are integers ([parseInt] yields integers),
      in the range where the engine's arithmetic on them is exact.
    - The built-ins whose result depends on Unicode tables or on number
      syntax are the fields of the class [Engine]; [asciiEngine] is an
      executable instance for ASCII text and integer literals.
    - The store is the content of data.json, passed to a handler and
      returned by it; ids of presets are integers, the id that POST
      computes is rounded as a sum of doubles is, and an id that
      [parseInt] could not read is [None].
    - The table of the frontend is the state that [loadData] writes; a
      request and its response are one step.
    - [Array.prototype.sort] is a built-in, the field of the class
      [ArraySort].  ECMAScript fixes its result when the comparator is
      consistent, as the stable sorted arrangement, and leaves the order to
      the implementation otherwise: this is [ArraySortContract], and the
      theorems hold for every sort that meets it.  [v8ArraySort] is the
      sort of V8 on arrays of fewer than 64 elements, for the examples. *)

From Stdlib Require Import ZArith QArith Lqa String Ascii List Sorted DecimalString.
From stdpp Require Import gmap strings list sorting.
Import ListNotations.

Local Open Scope string_scope.
Local Open Scope Z_scope.

(** ** Values *)

(** A JavaScript number of the model: NaN or a finite rational. *)
Inductive number : Type :=
  | NaN : number
  | Fin (q : Q) : number.

(** The values a property of a record can hold, and [undefined].  An
    object or a function is kept as the text that [String] gives it, which
    is all that the code reads of it. *)
Inductive jsval : Type :=
  | VUndefined : jsval
  | VNull : jsval
  | VStr (s : string) : jsval
  | VNum (n : number) : jsval
  | VObject (text : string) : jsval.

Abbreviation record := (gmap string jsval).

(** The properties that every record inherits from [Object.prototype],
    with the text that [String] gives their value in Node: eleven
    built-in functions, and the accessor [__proto__], which returns
    [Object.prototype] itself. *)
Definition nativeFunction (name : string) : string :=
  "function " +:+ name +:+ "() { [native code] }".

Definition inheritedText (name : string) : option string :=
  if String.eqb name "constructor" then Some (nativeFunction "Object")
  else if String.eqb name "__proto__" then Some "[object Object]"
  else if existsb (String.eqb name)
            ["__defineGetter__"; "__defineSetter__"; "hasOwnProperty";
             "__lookupGetter__"; "__lookupSetter__"; "isPrototypeOf";
             "propertyIsEnumerable"; "toString"; "valueOf"; "toLocaleString"]
  then Some (nativeFunction name)
  else None.

(** [record[name]]: the value of the own property; without one, the
    value inherited from [Object.prototype]; without that, [undefined]. *)
Definition prop (r : record) (name : string) : jsval :=
  match r !! name with
  | Some v => v
  | None =>
      match inheritedText name with
      | Some text => VObject text
      | None => VUndefined
      end
  end.

(** [value === undefined || value === null] *)
Definition absent (v : jsval) : bool :=
  match v with
  | VUndefined | VNull => true
  | _ => false
  end.

(** ** Built-ins of the engine *)

Class Engine : Type := {
  (** [String.prototype.toLowerCase] *)
  toLowerCase : string → string;
  (** [Number::toString], radix 10 *)
  numberToString : number → string;
  (** [StringToNumber]: the numeric value of a text, NaN if it has none *)
  stringToNumber : string → number;
  (** [String.prototype.localeCompare]: negative, zero or positive *)
  localeCompare : string → string → Z
}.

Section Conversions.
Context `{Engine}.

(** [String(v)] *)
Definition toString (v : jsval) : string :=
  match v with
  | VUndefined => "undefined"
  | VNull => "null"
  | VStr s => s
  | VNum n => numberToString n
  | VObject text => text
  end.

(** [Number(v)]; an object or a function converts through its text. *)
Definition toNumber (v : jsval) : number :=
  match v with
  | VUndefined => NaN
  | VNull => Fin 0
  | VStr s => stringToNumber s
  | VNum n => n
  | VObject text => stringToNumber text
  end.
End Conversions.

(** ** Comparison and arithmetic on numbers

    Every comparison with NaN is false; every operation on NaN is NaN. *)

Definition num_lt (a b : number) : bool :=
  match a, b with
  | Fin p, Fin q => match (p ?= q)%Q with Lt => true | _ => false end
  | _, _ => false
  end.

Definition num_le (a b : number) : bool :=
  match a, b with
  | Fin p, Fin q => match (p ?= q)%Q with Gt => false | _ => true end
  | _, _ => false
  end.

Definition num_gt (a b : number) : bool := num_lt b a.
Definition num_ge (a b : number) : bool := num_le b a.

Definition num_sub (a b : number) : number :=
  match a, b with
  | Fin p, Fin q => Fin (p - q)
  | _, _ => NaN
  end.

Definition num_neg (a : number) : number :=
  match a with
  | Fin p => Fin (- p)
  | NaN => NaN
  end.

(** ** Text predicates *)

(** [s.startsWith(t)] *)
Definition startsWith (s t : string) : bool := String.prefix t s.

(** [s.includes(t)]: [t] occurs in [s] at some position. *)
Fixpoint includes (s t : string) : bool :=
  String.prefix t s ||
  match s with
  | EmptyString => false
  | String _ s' => includes s' t
  end.

(** [s.endsWith(t)]: the last [length t] characters of [s] are [t]. *)
Definition endsWith (s t : string) : bool :=
  let n := String.length s in
  let m := String.length t in
  (m <=? n)%nat && String.eqb (substring (n - m) m s) t.

(** ** Filter conditions *)

Record Filter : Type := mkFilter {
  field : string;
  operator : string;
  value : jsval
}.

Section Filtering.
Context `{Engine}.

(** The callback of [filters.map] (server.js, lines 31-57): the verdict
    of one condition on one record. *)
Definition evalCondition (r : record) (c : Filter) : bool :=
  let v := prop r (field c) in
  let filterValue := value c in
  if absent v then false
  else if String.eqb (operator c) "equals" then
    String.eqb (toLowerCase (toString v)) (toLowerCase (toString filterValue))
  else if String.eqb (operator c) "contains" then
    includes (toLowerCase (toString v)) (toLowerCase (toString filterValue))
  else if String.eqb (operator c) ">" then
    num_gt (toNumber v) (toNumber filterValue)
  else if String.eqb (operator c) "<" then
    num_lt (toNumber v) (toNumber filterValue)
  else if String.eqb (operator c) ">=" then
    num_ge (toNumber v) (toNumber filterValue)
  else if String.eqb (operator c) "<=" then
    num_le (toNumber v) (toNumber filterValue)
  else if String.eqb (operator c) "startsWith" then
    startsWith (toLowerCase (toString v)) (toLowerCase (toString filterValue))
  else if String.eqb (operator c) "endsWith" then
    endsWith (toLowerCase (toString v)) (toLowerCase (toString filterValue))
  else false.

(** The callback of [data.filter] (lines 30-59): map the conditions to
    their verdicts, then reduce with [some] if the combinator is the text
    OR and with [every] otherwise. *)
Definition keepRecord (filters : list Filter) (logic : string) (r : record) : bool :=
  let results := map (evalCondition r) filters in
  if String.eqb logic "OR" then existsb id results else forallb id results.

(** [applyFilters].  [None] is a [filters] argument that is [null] or
    [undefined]; both it and the empty array return [data] itself. *)
Definition applyFilters (data : list record) (filters : option (list Filter))
    (logic : string) : list record :=
  match filters with
  | None => data
  | Some [] => data
  | Some fs => List.filter (keepRecord fs logic) data
  end.
End Filtering.

(** ** Sorting *)

Section SortArray.
Context {A : Type} (comparefn : A → A → number).

(** [SortCompare] of ECMAScript reads the comparator's result by its
    sign, NaN counting as zero.  [sortsAfter x y]: the result for
    [(x, y)] is positive, so [x] belongs after [y]. *)
Definition sortsAfter (x y : A) : bool := num_lt (Fin 0) (comparefn x y).

(** [tie x y]: the result for [(x, y)] is zero or NaN. *)
Definition tie (x y : A) : bool :=
  negb (num_lt (Fin 0) (comparefn x y)) && negb (num_lt (comparefn x y) (Fin 0)).

(** Insert [x], which preceded every element of [l] in the input, into
    the sorted [l]: it passes the elements it sorts after and stops at
    the first other one. *)
Fixpoint insertSorted (x : A) (l : list A) : list A :=
  match l with
  | [] => [x]
  | y :: l' => if sortsAfter x y then y :: insertSorted x l' else x :: l
  end.

(** The stable insertion sort: the sorted arrangement in which elements
    that tie keep their order, when the comparator is consistent. *)
Fixpoint sortArray (l : list A) : list A :=
  match l with
  | [] => []
  | x :: l' => insertSorted x (sortArray l')
  end.
End SortArray.

Section ConsistentOrder.
Context {A : Type} (comparefn : A → A → number).

(** [sortsBefore x y]: the result for [(x, y)] is negative, so [x] belongs
    before [y]. *)
Definition sortsBefore (x y : A) : bool := num_lt (comparefn x y) (Fin 0).

(** ECMAScript's consistent comparator, on the elements of [l]: every
    element ties with itself, ties are symmetric and transitive, and
    "sorts before" and "sorts after" are transitive.  (That a call with
    the same arguments returns the same result holds of every function
    here.) *)
Definition consistentOrder (l : list A) : Prop :=
  ∀ a b c, a ∈ l → b ∈ l → c ∈ l →
    tie comparefn a a = true
    ∧ (tie comparefn a b = true → tie comparefn b a = true)
    ∧ (tie comparefn a b = true → tie comparefn b c = true →
       tie comparefn a c = true)
    ∧ (sortsBefore a b = true → sortsBefore b c = true → sortsBefore a c = true)
    ∧ (sortsAfter comparefn a b = true → sortsAfter comparefn b c = true →
       sortsAfter comparefn a c = true).
End ConsistentOrder.

(** [Array.prototype.sort(comparefn)] on a fresh copy of the array, a
    built-in of the engine. *)
Class ArraySort : Type := {
  arraySort : ∀ {A : Type}, (A → A → number) → list A → list A
}.

(** The contract of [Array.prototype.sort] in ECMAScript.  The result is
    a rearrangement of the array.  For a comparator that is consistent
    on the array the result is the sorted arrangement in which elements
    that tie keep their order; there is one such arrangement, and
    [sortArray] computes it.  For any other comparator the order is left
    to the implementation. *)
Class ArraySortContract `{ArraySort} : Prop := {
  arraySort_permutes :
    ∀ {A : Type} (comparefn : A → A → number) (l : list A),
      arraySort comparefn l ≡ₚ l;
  arraySort_consistent :
    ∀ {A : Type} (comparefn : A → A → number) (l : list A),
      consistentOrder comparefn l → arraySort comparefn l = sortArray comparefn l
}.

Section Sorting.
Context `{Engine} `{ArraySort}.

(** The comparator passed to [sort] (server.js, lines 66-76).  The branch
    is chosen by the type of the first operand alone; [localeCompare]
    converts its argument with [String], the subtraction converts both
    operands with [Number]. *)
Definition compareRecords (sortField sortOrder : string) (a b : record) : number :=
  let aVal := prop a sortField in
  let bVal := prop b sortField in
  let comparison :=
    match aVal with
    | VStr s => Fin (inject_Z (localeCompare s (toString bVal)))
    | _ => num_sub (toNumber aVal) (toNumber bVal)
    end in
  if String.eqb sortOrder "desc" then num_neg comparison else comparison.

(** [!sortField]: the parameter is missing or the empty text. *)
Definition noSortField (sortField : option string) : bool :=
  match sortField with
  | None => true
  | Some f => String.eqb f ""
  end.

(** [applySort] *)
Definition applySort (data : list record) (sortField : option string)
    (sortOrder : string) : list record :=
  match sortField with
  | None => data
  | Some f =>
      if String.eqb f "" then data
      else arraySort (compareRecords f sortOrder) data
  end.
End Sorting.

(** ** Pagination *)

(** [Array.prototype.slice(start, end)]: a negative index counts from the
    end of the array, both indices are clamped to the array, and the result
    is empty when the clamped end does not exceed the clamped start. *)
Definition slice {A : Type} (l : list A) (start end_ : Z) : list A :=
  let len := Z.of_nat (length l) in
  let k := if start <? 0 then Z.max (len + start) 0 else Z.min start len in
  let final := if end_ <? 0 then Z.max (len + end_) 0 else Z.min end_ len in
  take (Z.to_nat (final - k)) (drop (Z.to_nat k) l).

(** The object [paginate] returns, the body of the HTTP response. *)
Record ApiResponse (A : Type) : Type := mkApiResponse {
  data : list A;
  total : Z;
  hasMore : bool
}.
Arguments mkApiResponse {A} _ _ _.
Arguments data {A} _.
Arguments total {A} _.
Arguments hasMore {A} _.

(** [paginate] *)
Definition paginate {A : Type} (rows : list A) (page limit : Z) : ApiResponse A :=
  let start := page * limit in
  let end_ := start + limit in
  {| data := slice rows start end_;
     total := Z.of_nat (length rows);
     hasMore := end_ <? Z.of_nat (length rows) |}.

(** ** The request handler and the page loop *)

Section Handler.
Context `{Engine} `{ArraySort}.

(** GET /api/records (server.js, lines 120-124), after the query has been
    decoded: filter, then sort, then paginate the employee snapshot. *)
Definition getRecords (employees : list record) (page limit : Z)
    (sortField : option string) (sortOrder : string)
    (filters : option (list Filter)) (logic : string) : ApiResponse record :=
  let result := applyFilters employees filters logic in
  let result := applySort result sortField sortOrder in
  paginate result page limit.
End Handler.

(** A client that reads page after page, as [loadData] of the frontend
    does when it is called for the next page: page [page] is requested
    and its rows are appended to the rows read; while the response has
    [hasMore], the next page is requested.  [fuel] bounds the number of
    further requests; [None] means that the bound was reached with
    [hasMore] still true. *)
Fixpoint loadPages {A : Type} (fuel : nat) (rows : list A) (limit page : Z)
    : option (list A) :=
  let response := paginate rows page limit in
  if hasMore response then
    match fuel with
    | O => None
    | S fuel' =>
        match loadPages fuel' rows limit (page + 1) with
        | Some rest => Some (data response ++ rest)%list
        | None => None
        end
    end
  else Some (data response).

(** ** An executable engine

    [asciiEngine] implements the built-ins for ASCII text and integers:
    letters A-Z are lowered, an integer is printed and read in decimal, and
    texts are compared by their characters' codes (which is the collation's
    order on words written in one letter case).  Texts and numbers beyond
    that are outside its range; the theorems below hold for every
    [Engine]. *)

Definition lowerAscii (c : ascii) : ascii :=
  let n := nat_of_ascii c in
  if ((65 <=? n) && (n <=? 90))%nat then ascii_of_nat (n + 32) else c.

Fixpoint lowerString (s : string) : string :=
  match s with
  | EmptyString => EmptyString
  | String c s' => String (lowerAscii c) (lowerString s')
  end.

Definition printZ (z : Z) : string := NilZero.string_of_int (Z.to_int z).

Definition printNumber (n : number) : string :=
  match n with
  | NaN => "NaN"
  | Fin q =>
      let q' := Qred q in
      match Qden q' with
      | xH => printZ (Qnum q')
      | d => printZ (Qnum q') ++ "/" ++ printZ (Zpos d)
      end
  end.

Definition readNumber (s : string) : number :=
  if String.eqb s "" then Fin 0
  else match NilZero.int_of_string s with
       | Some i => Fin (inject_Z (Z.of_int i))
       | None => NaN
       end.

Definition compareCodes (s t : string) : Z :=
  match String.compare s t with
  | Lt => -1
  | Eq => 0
  | Gt => 1
  end.

Definition asciiEngine : Engine :=
  {| toLowerCase := lowerString;
     numberToString := printNumber;
     stringToNumber := readNumber;
     localeCompare := compareCodes |}.

(** ** The sort of V8

    [Array.prototype.sort] of V8 (array-sort.tq), for an array of fewer
    than 64 elements: it finds the run at the start of the array,
    reverses it if it is descending, and inserts the other elements one
    by one, each at the place found by binary search.  Longer arrays are
    cut into several runs that V8 merges; [v8Sort] treats them like short
    ones. *)

Section V8Sort.
Context {A : Type} (comparefn : A → A → number).

(** The loop of [CountAndMakeRun]: how many elements of [l] continue the
    run that ends with [previous].  A descending run goes on while the
    next element sorts before the previous one, an ascending run while it
    does not. *)
Fixpoint runTail (descending : bool) (previous : A) (l : list A) : nat :=
  match l with
  | [] => 0
  | current :: l' =>
      if descending then
        if sortsBefore comparefn current previous
        then S (runTail descending current l') else 0
      else
        if sortsBefore comparefn current previous
        then 0 else S (runTail descending current l')
  end.

(** [CountAndMakeRun]: the run at the start of the array, made
    ascending, and the elements behind it.  The run is descending when the
    second element sorts before the first. *)
Definition countAndMakeRun (l : list A) : list A * list A :=
  match l with
  | low :: second :: l' =>
      let descending := sortsBefore comparefn second low in
      let runLength := (2 + runTail descending second l')%nat in
      let run := take runLength l in
      (if descending then rev run else run, drop runLength l)
  | _ => (l, [])
  end.

(** The binary search of [BinaryInsertionSort] in [run] between [left]
    and [right]: the pivot goes left of the middle element if it sorts
    before it, and right of it otherwise. *)
Fixpoint binarySearch (steps : nat) (pivot : A) (run : list A) (left right : nat) : nat :=
  match steps with
  | O => left
  | S steps' =>
      if (left <? right)%nat then
        let mid := (left + (right - left) / 2)%nat in
        match run !! mid with
        | Some element =>
            if sortsBefore comparefn pivot element
            then binarySearch steps' pivot run left mid
            else binarySearch steps' pivot run (mid + 1) right
        | None => left
        end
      else left
  end.

(** One round of [BinaryInsertionSort]: the pivot moves to its place. *)
Definition binaryInsert (run : list A) (pivot : A) : list A :=
  let left := binarySearch (length run) pivot run 0 (length run) in
  (take left run ++ pivot :: drop left run)%list.

(** The sort; an array of fewer than two elements is returned as it is. *)
Definition v8Sort (l : list A) : list A :=
  match l with
  | [] | [_] => l
  | _ => let (run, rest) := countAndMakeRun l in fold_left binaryInsert rest run
  end.

(** Insert [x], which followed every element of [l] in the input, into
    the sorted [l]: behind the elements that it does not sort before. *)
Fixpoint insertLast (x : A) (l : list A) : list A :=
  match l with
  | [] => [x]
  | y :: l' => if sortsBefore comparefn x y then x :: l else y :: insertLast x l'
  end.
End V8Sort.

Definition v8ArraySort : ArraySort := {| arraySort := @v8Sort |}.

Module Scenario.
(** The records of the specification's scenarios. *)
Definition person (name : string) (age : Z) : record :=
  <["name" := VStr name]> (<["age" := VNum (Fin (inject_Z age))]> ∅).

Definition Bob : record := person "Bob" 30.
Definition Amy : record := person "Amy" 25.
Definition Cid : record := person "Cid" 25.
Definition people : list record := [Bob; Amy; Cid].

Definition ageAtLeast25 : Filter := mkFilter "age" ">=" (VStr "25").
Definition nameContainsO : Filter := mkFilter "name" "contains" (VStr "o").
Definition ageBelow26 : Filter := mkFilter "age" "<" (VStr "26").

(** A record without the property [age], and a condition on a property
    that no record of the scenarios has. *)
Definition Dee : record := <["name" := VStr "Dee"]> ∅.
Definition cityIsUndefined : Filter := mkFilter "city" "equals" (VStr "Undefined").
Definition nameIsAMY : Filter := mkFilter "name" "equals" (VStr "AMY").

(** Records with and without an age, in an order in which the sort by
    age does not keep two records of equal age in place. *)
Definition Dot : record := <["name" := VStr "Dot"]> ∅.
Definition Dov : record := <["name" := VStr "Dov"]> ∅.
Definition Xia : record := person "Xia" 30.
Definition Ann : record := person "Ann" 25.
Definition Zoe : record := person "Zoe" 20.
Definition Ben : record := person "Ben" 25.
Definition mixed : list record := [Dee; Dot; Xia; Dov; Ann; Zoe; Ben].

(** The name of a record, as a text. *)
Definition nameOf (r : record) : string :=
  match prop r "name" with
  | VStr s => s
  | _ => ""
  end.
End Scenario.

(** ** Notions used in the statements *)

(** [precedes x y l]: an occurrence of [x] lies before an occurrence of
    [y] in [l]. *)
Definition precedes {A : Type} (x y : A) (l : list A) : Prop :=
  ∃ l1 l2 l3, l = (l1 ++ x :: l2 ++ y :: l3)%list.

(** Conditions that follow from ECMAScript's for a consistent comparator
    ([consistentOrder]), on the elements of [l]: ties are reflexive,
    symmetric and transitive, and "sorts after" is transitive and never
    holds in both directions. *)
Definition consistentComparator {A : Type} (comparefn : A → A → number)
    (l : list A) : Prop :=
  ∀ a b c, a ∈ l → b ∈ l → c ∈ l →
    tie comparefn a a = true
    ∧ (tie comparefn a b = true → tie comparefn b a = true)
    ∧ (tie comparefn a b = true → tie comparefn b c = true →
       tie comparefn a c = true)
    ∧ (sortsAfter comparefn a b = true → sortsAfter comparefn b c = true →
       sortsAfter comparefn a c = true)
    ∧ (sortsAfter comparefn a b = true → sortsAfter comparefn b a = false).

(** Two values have the same text up to letter case:
    [String(v).toLowerCase() === String(w).toLowerCase()]. *)
Definition sameTextIgnoringCase `{Engine} (v w : jsval) : Prop :=
  toLowerCase (toString v) = toLowerCase (toString w).

(** ** Decoding the query (server.js, lines 112-118) *)

(** [n || d] for the result [n] of [parseInt], where [None] is NaN: NaN
    and 0 are falsy. *)
Definition numberOr (n : option Z) (d : Z) : Z :=
  match n with
  | None => d
  | Some z => if z =? 0 then d else z
  end.

(** [s || d] for a query parameter [s] that may be missing: a missing
    parameter and the empty text are falsy. *)
Definition textOr (s : option string) (d : string) : string :=
  match s with
  | None => d
  | Some s' => if String.eqb s' "" then d else s'
  end.

(** [parseInt(query[key]) || d].  [parseInt] is the engine's; of a
    missing parameter it is NaN. *)
Definition queryInt (parseInt : string → option Z) (query : gmap string string)
    (key : string) (d : Z) : Z :=
  numberOr (match query !! key with Some s => parseInt s | None => None end) d.

Section DecodedHandler.
Context `{Engine} `{ArraySort}.

(** The handler of GET /api/records on the parsed query.  [filters] is
    the array decoded from the parameter [filters], empty when the
    parameter is missing. *)
Definition handleGetRecords (parseInt : string → option Z) (employees : list record)
    (query : gmap string string) (filters : list Filter) : ApiResponse record :=
  let page := queryInt parseInt query "page" 0 in
  let limit := queryInt parseInt query "limit" 50 in
  let sortField := query !! "sortField" in
  let sortOrder := textOr (query !! "sortOrder") "asc" in
  let logic := textOr (query !! "logic") "AND" in
  getRecords employees page limit sortField sortOrder (Some filters) logic.
End DecodedHandler.

(** A [parseInt] for decimal integer literals. *)
Definition readInt (s : string) : option Z :=
  match NilZero.int_of_string s with
  | Some i => Some (Z.of_int i)
  | None => None
  end.

(** ** The request of the frontend (api.ts, [fetchRecords]) *)

Module Table.
(** The state of the table in [App] (App.tsx, lines 23-27): the rows
    shown and the state of the paging. *)
Record State : Type := mk {
  employees : list record;
  loading : bool;
  hasMore : bool;
  page : Z;
  totalRecords : Z
}.

(** The state on mount, from the initial values of [useState]. *)
Definition initial : State := mk [] false true 0 0.

(** What [handleScroll] reads from the element of [tableRef]. *)
Record Element : Type := mkElement {
  scrollTop : Q;
  scrollHeight : Q;
  clientHeight : Q
}.
End Table.

(** [if (v) params.append(key, v)]: a parameter that is missing or the
    empty text is not sent. *)
Definition appendIf (key : string) (v : option string)
    (params : gmap string string) : gmap string string :=
  match v with
  | Some s => if String.eqb s "" then params else <[key := s]> params
  | None => params
  end.

Section Client.
Context `{Engine} `{ArraySort}.
(** [Number.prototype.toString] and [parseInt], [JSON.stringify] and
    [JSON.parse] on arrays of conditions. *)
Variable numberText : Z → string.
Variable parseInt : string → option Z.
Variable stringify : list Filter → string.
Variable parse : string → list Filter.

(** The query parameters that [fetchRecords] sends. *)
Definition fetchRecordsParams (page limit : Z) (sortField sortOrder : option string)
    (filters : option (list Filter)) (logic : option string) : gmap string string :=
  let params := <["limit" := numberText limit]> (<["page" := numberText page]> ∅) in
  let params := appendIf "sortField" sortField params in
  let params := appendIf "sortOrder" sortOrder params in
  let params :=
    match filters with
    | Some (c :: fs) => <["filters" := stringify (c :: fs)]> params
    | _ => params
    end in
  appendIf "logic" logic params.

(** The handler of GET /api/records with the decoding of the parameter
    [filters]: [query.filters ? JSON.parse(query.filters) : []].  The query
    that the server parses from the URL is the parameter map that the
    client encoded into it; encoding and decoding are the engine's. *)
Definition serveRecords (employees : list record) (query : gmap string string)
    : ApiResponse record :=
  handleGetRecords parseInt employees query
    (match query !! "filters" with
     | Some s => if String.eqb s "" then [] else parse s
     | None => []
     end).

(** The call of [fetchRecords] in [loadData] for page [pageNum], answered
    by the server: the page size is 50, and an empty array of conditions
    is not sent. *)
Definition fetchPage (employees : list record) (sortField sortOrder : option string)
    (filters : list Filter) (logic : string) (pageNum : Z) : ApiResponse record :=
  serveRecords employees
    (fetchRecordsParams pageNum 50 sortField sortOrder
       (match filters with [] => None | _ => Some filters end) (Some logic)).

(** [loadData(pageNum, reset)] (App.tsx, lines 80-103), the request and
    its response in one step: nothing happens while a request is under
    way; otherwise the rows of the response replace the rows shown, or
    are appended to them, and [hasMore], the total and the page number
    are stored. *)
Definition loadData (employees : list record) (sortField sortOrder : option string)
    (filters : list Filter) (logic : string) (st : Table.State) (pageNum : Z)
    (reset : bool) : Table.State :=
  if Table.loading st then st
  else
    let response := fetchPage employees sortField sortOrder filters logic pageNum in
    Table.mk
      (if reset then data response else (Table.employees st ++ data response)%list)
      false (hasMore response) pageNum (total response).

(** [tableRef.current]: the ref is created with [null] (App.tsx, line
    42), and no element of the page is given the ref, so that it is
    [null] whenever it is read. *)
Definition tableRef_current : option Table.Element := None.

(** [handleScroll] (App.tsx, lines 111-118), where [current] is
    [tableRef.current]: without an element, while a request is under way
    and when the last response had no [hasMore], nothing happens;
    otherwise the next page is loaded when the table is scrolled to
    within one and a half of its heights of its end. *)
Definition handleScroll (current : option Table.Element) (employees : list record)
    (sortField sortOrder : option string) (filters : list Filter) (logic : string)
    (st : Table.State) : Table.State :=
  match current with
  | None => st
  | Some element =>
      if Table.loading st || negb (Table.hasMore st) then st
      else if Qle_bool (Table.scrollHeight element - Table.scrollTop element)
                (Table.clientHeight element * (3 # 2))
      then loadData employees sortField sortOrder filters logic st (Table.page st + 1) false
      else st
  end.

(** The table after the initial load, [loadData(0, true)], and [n] scroll
    events. *)
Definition afterScrolls (n : nat) (employees : list record)
    (sortField sortOrder : option string) (filters : list Filter) (logic : string)
    : Table.State :=
  Nat.iter n (handleScroll tableRef_current employees sortField sortOrder filters logic)
    (loadData employees sortField sortOrder filters logic Table.initial 0 true).
End Client.

(** ** The preset store (server.js, lines 139-175) *)

Module Preset.
Record t : Type := mk {
  id : Z;
  name : string;
  filters : list Filter;
  logic : string;
  isDefault : bool
}.
End Preset.

(** The content of data.json, which every handler reads and the preset
    handlers write back. *)
Record Data : Type := mkData {
  employees : list record;
  presets : list Preset.t
}.

(** [Math.max(x, ...l)] *)
Definition Math_max (x : Z) (l : list Z) : Z := fold_left Z.max l x.

(** [p.id === id], for an [id] that [parseInt] returned: NaN, which is
    [None], equals no number. *)
Definition hasId (id : option Z) (p : Preset.t) : bool :=
  match id with
  | Some z => Preset.id p =? z
  | None => false
  end.

(** [Number.isSafeInteger]: the integers below 2^53 in absolute value. *)
Definition safeInteger (z : Z) : Prop := Z.abs z < 2 ^ 53.

(** Every stored id is a safe integer. *)
Definition safeIds (ps : list Preset.t) : Prop :=
  ∀ p, p ∈ ps → safeInteger (Preset.id p).

(** The double nearest to the integer [n], by which a sum of doubles is
    rounded.  The integers up to 2^53 in absolute value are doubles;
    beyond, a double has 53 significant bits, and an integer halfway
    between two doubles goes to the one with the even significand.
    (Integers beyond the largest double, which round to Infinity, are
    not modelled.) *)
Definition roundToDouble (n : Z) : Z :=
  let a := Z.abs n in
  if a <? 2 ^ 53 then n
  else
    let ulp := 2 ^ (Z.log2 a - 52) in
    let q := a / ulp in
    let r := a mod ulp in
    let q' :=
      if 2 * r <? ulp then q
      else if ulp <? 2 * r then q + 1
      else if Z.even q then q else q + 1 in
    Z.sgn n * (q' * ulp).

(** The id that POST gives the new preset: 1 in an empty store, one above
    the largest id otherwise, as a double. *)
Definition nextId (ps : list Preset.t) : Z :=
  match map Preset.id ps with
  | [] => 1
  | x :: l => roundToDouble (Math_max x l + 1)
  end.

(** POST /api/presets: the preset of the body gets the next id and is
    pushed; the response is the preset with its id. *)
Definition postPreset (d : Data) (newPreset : Preset.t) : Data * Preset.t :=
  let created :=
    Preset.mk (nextId (presets d)) (Preset.name newPreset)
      (Preset.filters newPreset) (Preset.logic newPreset)
      (Preset.isDefault newPreset) in
  (mkData (employees d) (presets d ++ [created])%list, created).

(** PUT /api/presets/:id/default: [isDefault] becomes [p.id === id] in
    every preset. *)
Definition putPresetDefault (d : Data) (id : option Z) : Data :=
  mkData (employees d)
    (map (λ p, Preset.mk (Preset.id p) (Preset.name p) (Preset.filters p)
                 (Preset.logic p) (hasId id p))
       (presets d)).

(** DELETE /api/presets/:id: the presets with [p.id !== id] stay. *)
Definition deletePreset (d : Data) (id : option Z) : Data :=
  mkData (employees d) (List.filter (λ p, negb (hasId id p)) (presets d)).

(** ** The state of the frontend (App.tsx) *)

Module App.
(** The sort state: [sortField] and [sortOrder], each of which can be
    [null]. *)
Record SortState : Type := mkSortState {
  sortField : option string;
  sortOrder : option string
}.

(** [handleSort]: a click on the header of column [field].  Both setters
    read the state of the render in which the click happened. *)
Definition handleSort (st : SortState) (field : string) : SortState :=
  if decide (sortField st = Some field) then
    mkSortState
      (if decide (sortOrder st = Some "desc") then None else sortField st)
      (if decide (sortOrder st = Some "asc") then Some "desc"
       else if decide (sortOrder st = Some "desc") then None
       else Some "asc")
  else mkSortState (Some field) (Some "asc").

(** The sort states that clicks produce: no column and no order, or a
    column with the order [asc] or [desc]. *)
Definition validSort (st : SortState) : Prop :=
  match sortField st, sortOrder st with
  | None, None => True
  | Some _, Some o => o = "asc" ∨ o = "desc"
  | _, _ => False
  end.

(** [OPERATORS], the operators that the filter rows offer. *)
Definition OPERATORS : list string :=
  ["equals"; "contains"; ">"; "<"; ">="; "<="; "startsWith"; "endsWith"].

(** [addFilter] *)
Definition addFilter (filters : list Filter) : list Filter :=
  (filters ++ [mkFilter "firstName" "contains" (VStr "")])%list.

(** [Array.prototype.filter] with a callback that reads the index only. *)
Fixpoint filterIndex {A : Type} (keep : nat → bool) (i : nat) (l : list A) : list A :=
  match l with
  | [] => []
  | x :: l' =>
      if keep i then x :: filterIndex keep (S i) l' else filterIndex keep (S i) l'
  end.

(** [removeFilter] *)
Definition removeFilter (filters : list Filter) (index : nat) : list Filter :=
  filterIndex (λ i, negb (i =? index)%nat) 0 filters.

(** [loadedPresets.find(p => p.isDefault)], the preset applied on mount. *)
Definition findDefault (loadedPresets : list Preset.t) : option Preset.t :=
  List.find Preset.isDefault loadedPresets.
End App.

(** ** Numeric sort keys *)

(** The number that a record holds at [f], 0 if it holds none. *)
Definition keyOf (f : string) (r : record) : Q :=
  match prop r f with
  | VNum (Fin q) => q
  | _ => 0%Q
  end.

(** Every record of [data] holds a number at [f]. *)
Definition numericField (f : string) (data : list record) : Prop :=
  ∀ r, r ∈ data → ∃ q, prop r f = VNum (Fin q).

(** Records of [data] that hold equal numbers at [f] are the same
    record: the sort by [f] has no ties. *)
Definition distinctKeys (f : string) (data : list record) : Prop :=
  ∀ a b, a ∈ data → b ∈ data → (keyOf f a == keyOf f b)%Q → a = b.

(** ** A small office, for instances of the further properties *)

Module Office.
Definition employee (firstName : string) (age : Z) : record :=
  <["firstName" := VStr firstName]> (<["age" := VNum (Fin (inject_Z age))]> ∅).

Definition Eve : record := employee "Eve" 41.
Definition Dan : record := employee "Dan" 33.
Definition staff : list record := [Eve; Dan].

Definition firstNameContainsV : Filter := mkFilter "firstName" "contains" (VStr "V").
Definition ageBelow40 : Filter := mkFilter "age" "<" (VStr "40").
Definition ageAboveAbc : Filter := mkFilter "age" ">" (VStr "abc").

Definition seniors : Preset.t := Preset.mk 1 "Seniors" [ageBelow40] "AND" false.
Definition eves : Preset.t := Preset.mk 4 "Eves" [firstNameContainsV] "OR" true.
Definition store : Data := mkData staff [seniors; eves].

(** The query [?page=0&limit=1]. *)
Definition firstOfOne : gmap string string :=
  <["page" := "0"]> (<["limit" := "1"]> ∅).

(** A codec for the one array of conditions that the instances send. *)
Definition sentFilters : list Filter := [ageBelow40].
Definition stringifySent (fs : list Filter) : string := "[sentFilters]".
Definition parseSent (s : string) : list Filter := sentFilters.
End Office.

(** * Properties *)

(** ** The filter stage *)

Lemma forallb_id_map {A : Type} (f : A → bool) (l : list A) :
  forallb id (map f l) = true ↔ Forall (λ x, f x = true) l.
Proof.
  induction l as [|x l IH]; simpl.
  - split; [constructor | reflexivity].
  - rewrite andb_true_iff, IH, Forall_cons. reflexivity.
Qed.

Lemma existsb_id_map {A : Type} (f : A → bool) (l : list A) :
  existsb id (map f l) = true ↔ Exists (λ x, f x = true) l.
Proof.
  induction l as [|x l IH]; simpl.
  - split; [discriminate | intros E; inversion E].
  - rewrite orb_true_iff, IH, Exists_cons. reflexivity.
Qed.

(** [Array.prototype.filter] with a boolean callback keeps what a
    decidable predicate equivalent to the callback keeps. *)
Lemma List_filter_decide {A : Type} (f : A → bool) (P : A → Prop)
    `{!∀ x, Decision (P x)} (l : list A) :
  (∀ x, f x = true ↔ P x) → List.filter f l = filter P l.
Proof.
  intros Hf. induction l as [|x l IH]; [reflexivity|].
  simpl. rewrite filter_cons, IH.
  destruct (f x) eqn:Hx; destruct (decide (P x)) as [HP|HP]; try reflexivity.
  - exfalso. apply HP, Hf, Hx.
  - apply Hf in HP. congruence.
Qed.

Lemma List_filter_sublist {A : Type} (f : A → bool) (l : list A) :
  List.filter f l `sublist_of` l.
Proof.
  induction l as [|x l IH]; simpl.
  - constructor.
  - destruct (f x); [apply sublist_skip | apply sublist_cons]; exact IH.
Qed.

Section FilterFacts.
Context `{Engine}.

Lemma logic_eqb_OR (logic : string) :
  logic ≠ "OR" → String.eqb logic "OR" = false.
Proof. intros Hne. apply String.eqb_neq, Hne. Qed.

Lemma keepRecord_every (fs : list Filter) (logic : string) (r : record) :
  logic ≠ "OR" →
  keepRecord fs logic r = true ↔ Forall (λ c, evalCondition r c = true) fs.
Proof.
  intros Hne. unfold keepRecord. rewrite (logic_eqb_OR _ Hne).
  apply forallb_id_map.
Qed.

Lemma keepRecord_some (fs : list Filter) (r : record) :
  keepRecord fs "OR" r = true ↔ Exists (λ c, evalCondition r c = true) fs.
Proof. unfold keepRecord. simpl. apply existsb_id_map. Qed.

(** The verdict on a record does not depend on the order of the
    conditions. *)
Lemma keepRecord_Permutation (fs fs' : list Filter) (logic : string) (r : record) :
  fs ≡ₚ fs' → keepRecord fs logic r = keepRecord fs' logic r.
Proof.
  intros Hp. unfold keepRecord.
  destruct (String.eqb logic "OR"); induction Hp; simpl;
    try reflexivity; try congruence.
  - destruct (evalCondition r x), (evalCondition r y); reflexivity.
  - destruct (evalCondition r x), (evalCondition r y); reflexivity.
Qed.

Lemma applyFilters_cons (data : list record) (c : Filter) (fs : list Filter)
    (logic : string) :
  applyFilters data (Some (c :: fs)) logic =
  List.filter (keepRecord (c :: fs) logic) data.
Proof. reflexivity. Qed.

Lemma applyFilters_nonempty (data : list record) (fs : list Filter) (logic : string) :
  fs ≠ [] →
  applyFilters data (Some fs) logic = List.filter (keepRecord fs logic) data.
Proof. destruct fs; [congruence | reflexivity]. Qed.

Lemma applyFilters_Permutation (data : list record) (fs fs' : list Filter)
    (logic : string) :
  fs ≡ₚ fs' →
  applyFilters data (Some fs) logic = applyFilters data (Some fs') logic.
Proof.
  intros Hp. destruct fs as [|c fs].
  - apply Permutation_nil_l in Hp. subst. reflexivity.
  - destruct fs' as [|c' fs'].
    + apply Permutation_nil_r in Hp. discriminate.
    + rewrite !applyFilters_cons. apply filter_ext.
      intros r. apply keepRecord_Permutation, Hp.
Qed.

(** C1. With at least one condition, [applyFilters] keeps exactly the
    records on which the combined predicate holds, in their input order:
    under the combinator OR the records on which some condition
    evaluates to true, under AND (as under every combinator other than
    the text OR) the records on which every condition does; and listing
    the conditions in another order keeps the same records. *)
Theorem applyFilters_combinator (data : list record) (fs : list Filter)
    (logic : string) :
  fs ≠ [] →
  (logic ≠ "OR" →
     applyFilters data (Some fs) logic =
     filter (λ r, Forall (λ c, evalCondition r c = true) fs) data)
  ∧ (logic = "OR" →
     applyFilters data (Some fs) logic =
     filter (λ r, Exists (λ c, evalCondition r c = true) fs) data)
  ∧ (∀ fs', fs ≡ₚ fs' →
     applyFilters data (Some fs') logic = applyFilters data (Some fs) logic).
Proof.
  intros Hfs. split; [|split].
  - intros Hne. rewrite (applyFilters_nonempty _ _ _ Hfs).
    apply List_filter_decide. intros r. apply keepRecord_every, Hne.
  - intros ->. rewrite (applyFilters_nonempty _ _ _ Hfs).
    apply List_filter_decide. intros r. apply keepRecord_some.
  - intros fs' Hp. symmetry. apply applyFilters_Permutation, Hp.
Qed.

(** C4. With no condition, under either combinator, [applyFilters]
    returns its input: the same records in the same order.  A [filters]
    argument that is missing behaves like the empty array. *)
Theorem applyFilters_empty (data : list record) (logic : string) :
  applyFilters data (Some []) logic = data
  ∧ applyFilters data None logic = data.
Proof. split; reflexivity. Qed.

(** C5, as the code has it.  A condition evaluates to false, whatever
    its operator and its value, when the record's value at the field is
    [undefined] or [null]; a field name that the record does not have is
    such a case when it is not the name of a property that every object
    inherits from [Object.prototype]. *)
Theorem evalCondition_absent (r : record) (c : Filter) :
  (r !! field c = None ∧ inheritedText (field c) = None)
  ∨ prop r (field c) = VUndefined
  ∨ prop r (field c) = VNull →
  evalCondition r c = false.
Proof.
  intros Habs.
  assert (Hv : absent (prop r (field c)) = true).
  { destruct Habs as [[Hnone Hown] | [Hu | Hn]].
    - unfold prop. rewrite Hnone, Hown. reflexivity.
    - rewrite Hu. reflexivity.
    - rewrite Hn. reflexivity. }
  unfold evalCondition. rewrite Hv. reflexivity.
Qed.

(** C6, as the code has it.  A condition with the operator [equals]
    evaluates to true exactly when the record's value at the field is
    present (neither [undefined] nor [null]) and its text equals the
    text of the condition's value up to letter case. *)
Theorem evalCondition_equals (r : record) (c : Filter) :
  operator c = "equals" →
  (evalCondition r c = true
   ↔ absent (prop r (field c)) = false
     ∧ sameTextIgnoringCase (prop r (field c)) (value c)).
Proof.
  intros Hop. unfold evalCondition, sameTextIgnoringCase. rewrite Hop. simpl.
  destruct (absent (prop r (field c))).
  - split; [discriminate | intros [Habs _]; discriminate].
  - rewrite String.eqb_eq. split; [intros Heq; split; [reflexivity | exact Heq] |].
    intros [_ Heq]. exact Heq.
Qed.

(** C10. The output of [applyFilters] is a subsequence of its input, for
    every filter set, empty or not: the records kept are records of the
    input, in their input order, none of them more often than in the
    input. *)
Theorem applyFilters_sublist (data : list record) (filters : option (list Filter))
    (logic : string) :
  applyFilters data filters logic `sublist_of` data
  ∧ (∀ r, r ∈ applyFilters data filters logic → r ∈ data)
  ∧ (length (applyFilters data filters logic) ≤ length data)%nat.
Proof.
  assert (Hs : applyFilters data filters logic `sublist_of` data).
  { destruct filters as [[|c fs]|]; try reflexivity.
    rewrite applyFilters_cons. apply List_filter_sublist. }
  split; [exact Hs | split].
  - intros r Hr. eapply sublist_subseteq; eassumption.
  - apply sublist_length, Hs.
Qed.
End FilterFacts.

(** ** The sort stage *)

Lemma num_lt_Fin (p q : Q) : num_lt (Fin p) (Fin q) = true ↔ (p < q)%Q.
Proof.
  simpl. rewrite Qlt_alt. destruct (p ?= q)%Q; split; congruence.
Qed.

Lemma num_le_Fin (p q : Q) : num_le (Fin p) (Fin q) = true ↔ (p <= q)%Q.
Proof.
  simpl. rewrite Qle_alt. destruct (p ?= q)%Q; split; congruence.
Qed.

Lemma num_lt_Fin_false (p q : Q) : num_lt (Fin p) (Fin q) = false ↔ (q <= p)%Q.
Proof.
  pose proof (num_lt_Fin p q) as Hlt.
  destruct (num_lt (Fin p) (Fin q)); split; try reflexivity; try discriminate.
  - intros Hle. assert (p < q)%Q by (apply Hlt; reflexivity). lra.
  - intros _. destruct (Qlt_le_dec p q) as [Hpq | Hqp]; [|exact Hqp].
    apply Hlt in Hpq. discriminate.
Qed.

Lemma precedes_sublist {A : Type} (x y : A) (l : list A) :
  precedes x y l ↔ [x; y] `sublist_of` l.
Proof.
  unfold precedes. rewrite sublist_cons_l. split.
  - intros (l1 & l2 & l3 & ->). exists l1, (l2 ++ y :: l3)%list.
    split; [reflexivity|]. apply sublist_cons_l. exists l2, l3.
    split; [reflexivity | apply sublist_nil_l].
  - intros (l1 & k & -> & Hk). apply sublist_cons_l in Hk.
    destruct Hk as (l2 & l3 & -> & _). exists l1, l2, l3. reflexivity.
Qed.

Lemma precedes_nil {A : Type} (x y : A) : ¬ precedes x y [].
Proof. intros (l1 & l2 & l3 & Hl). destruct l1; discriminate. Qed.

Lemma precedes_cons_inv {A : Type} (x y z : A) (l : list A) :
  precedes x y (z :: l) → (x = z ∧ y ∈ l) ∨ precedes x y l.
Proof.
  intros (l1 & l2 & l3 & Hl). destruct l1 as [|z' l1].
  - injection Hl as -> ->. left. split; [reflexivity|].
    apply elem_of_app. right. left.
  - injection Hl as -> ->. right. exists l1, l2, l3. reflexivity.
Qed.

Lemma precedes_map {A B : Type} (f : A → B) (x y : A) (l : list A) :
  precedes x y l → precedes (f x) (f y) (map f l).
Proof.
  intros (l1 & l2 & l3 & ->). exists (map f l1), (map f l2), (map f l3).
  rewrite map_app. simpl. rewrite map_app. reflexivity.
Qed.

Section SortArrayFacts.
Context {A : Type} (comparefn : A → A → number).

(** [insertSorted] puts [x] behind a prefix of elements it sorts after,
    and leaves the list otherwise as it is. *)
Lemma insertSorted_split (x : A) (l : list A) :
  ∃ l1 l2, l = (l1 ++ l2)%list
    ∧ insertSorted comparefn x l = (l1 ++ x :: l2)%list
    ∧ Forall (λ y, sortsAfter comparefn x y = true) l1.
Proof.
  induction l as [|y l IH]; simpl.
  - exists [], []. repeat split. constructor.
  - destruct (sortsAfter comparefn x y) eqn:Hxy.
    + destruct IH as (l1 & l2 & -> & -> & Hall).
      exists (y :: l1), l2. repeat split. constructor; assumption.
    + exists [], (y :: l). repeat split. constructor.
Qed.

Lemma insertSorted_Permutation (x : A) (l : list A) :
  insertSorted comparefn x l ≡ₚ x :: l.
Proof.
  destruct (insertSorted_split x l) as (l1 & l2 & -> & -> & _).
  symmetry. apply Permutation_middle.
Qed.

Lemma sortArray_Permutation (l : list A) : sortArray comparefn l ≡ₚ l.
Proof.
  induction l as [|x l IH]; simpl; [reflexivity|].
  rewrite insertSorted_Permutation, IH. reflexivity.
Qed.

Lemma insertSorted_keeps_order (x a b : A) (l : list A) :
  precedes a b l → precedes a b (insertSorted comparefn x l).
Proof.
  rewrite !precedes_sublist. intros Hab.
  destruct (insertSorted_split x l) as (l1 & l2 & -> & -> & _).
  etransitivity; [exact Hab|].
  apply sublist_app; [reflexivity | apply sublist_cons; reflexivity].
Qed.

(** The element inserted stays before every element that it does not
    sort after. *)
Lemma insertSorted_before (x b : A) (l : list A) :
  b ∈ l → sortsAfter comparefn x b = false →
  precedes x b (insertSorted comparefn x l).
Proof.
  intros Hb Hxb.
  destruct (insertSorted_split x l) as (l1 & l2 & -> & -> & Hall).
  apply elem_of_app in Hb. destruct Hb as [Hb | Hb].
  - rewrite Forall_forall in Hall. specialize (Hall b Hb). congruence.
  - apply list_elem_of_split in Hb. destruct Hb as (k1 & k2 & ->).
    exists l1, k1, k2. reflexivity.
Qed.

Lemma sortArray_keeps_order (a b : A) (l : list A) :
  precedes a b l → sortsAfter comparefn a b = false →
  precedes a b (sortArray comparefn l).
Proof.
  intros Hab Htie. induction l as [|x l IH].
  - destruct Hab as (l1 & l2 & l3 & Hl). destruct l1; discriminate.
  - simpl. destruct Hab as (l1 & l2 & l3 & Hl). destruct l1 as [|z l1].
    + injection Hl as -> ->.
      apply insertSorted_before; [|exact Htie].
      rewrite sortArray_Permutation. apply elem_of_app. right. left.
    + injection Hl as -> ->.
      apply insertSorted_keeps_order, IH. exists l1, l2, l3. reflexivity.
Qed.

(** [sortArray] is a sort: when "sorts after" is asymmetric and its
    complement transitive, as for a consistent comparator, no element of
    the output sorts after a later one. *)
Lemma insertSorted_sorted (x : A) (l : list A) :
  (∀ a b, sortsAfter comparefn a b = true → sortsAfter comparefn b a = false) →
  (∀ a b c, sortsAfter comparefn a b = false → sortsAfter comparefn b c = false →
            sortsAfter comparefn a c = false) →
  StronglySorted (λ a b, sortsAfter comparefn a b = false) l →
  StronglySorted (λ a b, sortsAfter comparefn a b = false) (insertSorted comparefn x l).
Proof.
  intros Hasym Htrans. induction l as [|y l IH]; intros Hs; simpl.
  - repeat constructor.
  - apply StronglySorted_inv in Hs. destruct Hs as [Hl Hy].
    destruct (sortsAfter comparefn x y) eqn:Hxy.
    + constructor; [apply IH, Hl|].
      rewrite insertSorted_Permutation. constructor; [apply Hasym, Hxy | exact Hy].
    + constructor; [constructor; assumption|].
      constructor; [exact Hxy|].
      eapply Forall_impl; [exact Hy|]. intros z Hyz. simpl in Hyz.
      exact (Htrans x y z Hxy Hyz).
Qed.

Lemma sortArray_sorted (l : list A) :
  (∀ a b, sortsAfter comparefn a b = true → sortsAfter comparefn b a = false) →
  (∀ a b c, sortsAfter comparefn a b = false → sortsAfter comparefn b c = false →
            sortsAfter comparefn a c = false) →
  StronglySorted (λ a b, sortsAfter comparefn a b = false) (sortArray comparefn l).
Proof.
  intros Hasym Htrans. induction l as [|x l IH]; simpl.
  - constructor.
  - apply insertSorted_sorted; assumption.
Qed.

Lemma tie_not_sortsAfter (a b : A) :
  tie comparefn a b = true → sortsAfter comparefn a b = false.
Proof.
  unfold tie, sortsAfter. intros Ht. apply andb_true_iff in Ht.
  destruct Ht as [Ht _]. apply negb_true_iff in Ht. exact Ht.
Qed.
End SortArrayFacts.

(** ** Consistent comparators and the sort of V8 *)

Lemma num_lt_exclusive (v : number) :
  num_lt v (Fin 0) = true → num_lt (Fin 0) v = false.
Proof.
  destruct v as [|q]; [discriminate|]. simpl.
  rewrite <- (Qcompare_antisym q 0). destruct (q ?= 0)%Q; simpl; congruence.
Qed.

Section Signs.
Context {A : Type} (comparefn : A → A → number).

Lemma sortsBefore_not_after (x y : A) :
  sortsBefore comparefn x y = true → sortsAfter comparefn x y = false.
Proof. apply num_lt_exclusive. Qed.

Lemma tie_true (x y : A) :
  tie comparefn x y = true
  ↔ sortsAfter comparefn x y = false ∧ sortsBefore comparefn x y = false.
Proof.
  unfold tie, sortsAfter, sortsBefore.
  rewrite andb_true_iff, !negb_true_iff. reflexivity.
Qed.

(** The result for a pair is negative, zero or positive. *)
Lemma sign_cases (x y : A) :
  (sortsBefore comparefn x y = true ∧ sortsAfter comparefn x y = false
   ∧ tie comparefn x y = false)
  ∨ (sortsBefore comparefn x y = false ∧ sortsAfter comparefn x y = true
     ∧ tie comparefn x y = false)
  ∨ (sortsBefore comparefn x y = false ∧ sortsAfter comparefn x y = false
     ∧ tie comparefn x y = true).
Proof.
  pose proof (sortsBefore_not_after x y) as Hex.
  unfold tie. fold (sortsAfter comparefn x y). fold (sortsBefore comparefn x y).
  destruct (sortsBefore comparefn x y), (sortsAfter comparefn x y); simpl; auto.
Qed.
End Signs.

Section OrderFacts.
Context {A : Type} (comparefn : A → A → number) (l : list A).
Hypothesis consistent : consistentOrder comparefn l.

Lemma consistent_tie_refl (a : A) : a ∈ l → tie comparefn a a = true.
Proof. intros Ha. exact (proj1 (consistent a a a Ha Ha Ha)). Qed.

Lemma consistent_tie_sym (a b : A) :
  a ∈ l → b ∈ l → tie comparefn a b = true → tie comparefn b a = true.
Proof. intros Ha Hb. exact (proj1 (proj2 (consistent a b a Ha Hb Ha))). Qed.

Lemma consistent_tie_trans (a b c : A) :
  a ∈ l → b ∈ l → c ∈ l →
  tie comparefn a b = true → tie comparefn b c = true → tie comparefn a c = true.
Proof. intros Ha Hb Hc. exact (proj1 (proj2 (proj2 (consistent a b c Ha Hb Hc)))). Qed.

Lemma consistent_before_trans (a b c : A) :
  a ∈ l → b ∈ l → c ∈ l →
  sortsBefore comparefn a b = true → sortsBefore comparefn b c = true →
  sortsBefore comparefn a c = true.
Proof.
  intros Ha Hb Hc. exact (proj1 (proj2 (proj2 (proj2 (consistent a b c Ha Hb Hc))))).
Qed.

Lemma consistent_after_trans (a b c : A) :
  a ∈ l → b ∈ l → c ∈ l →
  sortsAfter comparefn a b = true → sortsAfter comparefn b c = true →
  sortsAfter comparefn a c = true.
Proof.
  intros Ha Hb Hc. exact (proj2 (proj2 (proj2 (proj2 (consistent a b c Ha Hb Hc))))).
Qed.

(** "Sorts before" is the mirror image of "sorts after". *)
Lemma consistent_mirror (a b : A) :
  a ∈ l → b ∈ l → sortsBefore comparefn a b = sortsAfter comparefn b a.
Proof.
  intros Ha Hb.
  pose proof (consistent_tie_refl a Ha) as Haa.
  pose proof (consistent_tie_refl b Hb) as Hbb.
  apply tie_true in Haa. apply tie_true in Hbb.
  destruct (sign_cases comparefn a b) as [(Hb1 & Ha1 & Ht1) | [(Hb1 & Ha1 & Ht1) | (Hb1 & Ha1 & Ht1)]];
  destruct (sign_cases comparefn b a) as [(Hb2 & Ha2 & Ht2) | [(Hb2 & Ha2 & Ht2) | (Hb2 & Ha2 & Ht2)]];
    rewrite Hb1, Ha2; try reflexivity; exfalso.
  - pose proof (consistent_before_trans a b a Ha Hb Ha Hb1 Hb2). destruct Haa; congruence.
  - pose proof (consistent_tie_sym b a Hb Ha Ht2). congruence.
  - pose proof (consistent_after_trans a b a Ha Hb Ha Ha1 Ha2). destruct Haa; congruence.
  - pose proof (consistent_tie_sym a b Ha Hb Ht1). congruence.
Qed.

(** "Does not sort after" is transitive. *)
Lemma consistent_le_trans (a b c : A) :
  a ∈ l → b ∈ l → c ∈ l →
  sortsAfter comparefn a b = false → sortsAfter comparefn b c = false →
  sortsAfter comparefn a c = false.
Proof.
  intros Ha Hb Hc Hab Hbc.
  destruct (sortsAfter comparefn a c) eqn:Hac; [exfalso | reflexivity].
  assert (Hca : sortsBefore comparefn c a = true)
    by (rewrite consistent_mirror; assumption).
  destruct (sign_cases comparefn a b) as [(Hb1 & _ & _) | [(_ & Ha1 & _) | (_ & _ & Ht1)]];
    [| congruence |];
  destruct (sign_cases comparefn b c) as [(Hb2 & _ & _) | [(_ & Ha2 & _) | (_ & _ & Ht2)]];
    try congruence.
  - pose proof (consistent_before_trans a b c Ha Hb Hc Hb1 Hb2) as H1.
    apply sortsBefore_not_after in H1. congruence.
  - (* a < b, b = c *)
    pose proof (consistent_before_trans c a b Hc Ha Hb Hca Hb1) as Hcb.
    rewrite consistent_mirror in Hcb by assumption.
    apply tie_true in Ht2. destruct Ht2; congruence.
  - (* a = b, b < c *)
    pose proof (consistent_before_trans b c a Hb Hc Ha Hb2 Hca) as Hba.
    rewrite consistent_mirror in Hba by assumption.
    apply tie_true in Ht1. destruct Ht1; congruence.
  - pose proof (consistent_tie_trans a b c Ha Hb Hc Ht1 Ht2) as Ht.
    apply tie_true in Ht. destruct Ht; congruence.
Qed.
End OrderFacts.

(** A consistent comparator never sorts two elements after each other. *)
Lemma consistentOrder_consistentComparator {A : Type}
    (comparefn : A → A → number) (l : list A) :
  consistentOrder comparefn l → consistentComparator comparefn l.
Proof.
  intros Hc a b c Ha Hb Hc'.
  destruct (Hc a b c Ha Hb Hc') as (Hrefl & Hsym & Htrans & _ & Hafter).
  repeat split; try assumption.
  intros Hab. rewrite <- (consistent_mirror comparefn l Hc b a Hb Ha) in Hab.
  apply sortsBefore_not_after, Hab.
Qed.

(** ** Two stable insertions *)

Section StableOrder.
Context {A : Type} (comparefn : A → A → number) (P : A → Prop).
Hypothesis mirror :
  ∀ a b, P a → P b → sortsBefore comparefn a b = sortsAfter comparefn b a.
Hypothesis notAfter_trans :
  ∀ a b c, P a → P b → P c →
    sortsAfter comparefn a b = false → sortsAfter comparefn b c = false →
    sortsAfter comparefn a c = false.

Lemma notAfter_refl (a : A) : P a → sortsAfter comparefn a a = false.
Proof.
  intros Pa. destruct (sortsAfter comparefn a a) eqn:Haa; [|reflexivity].
  pose proof (mirror a a Pa Pa) as Hm. rewrite Haa in Hm.
  apply sortsBefore_not_after in Hm. congruence.
Qed.

Lemma after_asym (a b : A) :
  P a → P b → sortsAfter comparefn a b = true → sortsAfter comparefn b a = false.
Proof.
  intros Pa Pb Hab. rewrite <- (mirror a b Pa Pb).
  destruct (sortsBefore comparefn a b) eqn:Hb; [|reflexivity].
  apply sortsBefore_not_after in Hb. congruence.
Qed.

Lemma after_le_after (a b c : A) :
  P a → P b → P c →
  sortsAfter comparefn a b = true → sortsAfter comparefn c b = false →
  sortsAfter comparefn a c = true.
Proof.
  intros Pa Pb Pc Hab Hcb.
  destruct (sortsAfter comparefn a c) eqn:Hac; [reflexivity|].
  pose proof (notAfter_trans a c b Pa Pc Pb Hac Hcb). congruence.
Qed.

Lemma after_trans (a b c : A) :
  P a → P b → P c →
  sortsAfter comparefn a b = true → sortsAfter comparefn b c = true →
  sortsAfter comparefn a c = true.
Proof.
  intros Pa Pb Pc Hab Hbc.
  apply (after_le_after a b c Pa Pb Pc Hab).
  apply after_asym; assumption.
Qed.

(** Inserting one element from the front and one from the back can be done
    in either order. *)
Lemma insert_commute (a x : A) (s : list A) :
  P a → P x → Forall P s →
  insertSorted comparefn a (insertLast comparefn x s)
  = insertLast comparefn x (insertSorted comparefn a s).
Proof.
  intros Pa Px. induction s as [|y s IH]; intros Ps; simpl.
  - rewrite (mirror x a Px Pa). destruct (sortsAfter comparefn a x); reflexivity.
  - apply Forall_cons in Ps. destruct Ps as [Py Ps].
    destruct (sortsBefore comparefn x y) eqn:Hxy;
      destruct (sortsAfter comparefn a y) eqn:Hay; simpl.
    + assert (Hax : sortsAfter comparefn a x = true).
      { apply (after_trans a y x Pa Py Px Hay).
        rewrite <- (mirror x y Px Py). exact Hxy. }
      rewrite Hax, Hay, Hxy. reflexivity.
    + rewrite Hay, Hxy, (mirror x a Px Pa).
      destruct (sortsAfter comparefn a x); reflexivity.
    + rewrite Hay, Hxy, IH by exact Ps. reflexivity.
    + assert (Hxa : sortsBefore comparefn x a = false).
      { rewrite (mirror x a Px Pa). apply (notAfter_trans a y x Pa Py Px Hay).
        rewrite <- (mirror x y Px Py). exact Hxy. }
      rewrite Hay, Hxa, Hxy. reflexivity.
Qed.

Lemma Forall_insertSorted (x : A) (s : list A) :
  P x → Forall P s → Forall P (insertSorted comparefn x s).
Proof.
  intros Px. induction s as [|y s IH]; intros Ps; simpl.
  - repeat constructor. exact Px.
  - apply Forall_cons in Ps. destruct Ps as [Py Ps].
    destruct (sortsAfter comparefn x y); repeat constructor; auto.
Qed.

Lemma Forall_sortArray (l : list A) :
  Forall P l → Forall P (sortArray comparefn l).
Proof.
  induction l as [|x l IH]; intros Pl; simpl; [constructor|].
  apply Forall_cons in Pl. destruct Pl as [Px Pl].
  apply Forall_insertSorted; auto.
Qed.

(** Sorting a list with one more element at its end inserts that
    element from the back. *)
Lemma sortArray_snoc (l : list A) (x : A) :
  Forall P l → P x →
  sortArray comparefn (l ++ [x]) = insertLast comparefn x (sortArray comparefn l).
Proof.
  intros Pl Px. induction l as [|a l IH]; simpl; [reflexivity|].
  apply Forall_cons in Pl. destruct Pl as [Pa Pl].
  rewrite IH by exact Pl.
  apply insert_commute; [exact Pa | exact Px | apply Forall_sortArray, Pl].
Qed.

Lemma insertSorted_sorted_on (x : A) (s : list A) :
  P x → Forall P s →
  StronglySorted (λ a b, sortsAfter comparefn a b = false) s →
  StronglySorted (λ a b, sortsAfter comparefn a b = false)
    (insertSorted comparefn x s).
Proof.
  intros Px. induction s as [|y s IH]; intros Ps Hs; simpl.
  - repeat constructor.
  - apply Forall_cons in Ps. destruct Ps as [Py Ps].
    apply StronglySorted_inv in Hs. destruct Hs as [Hs Hy].
    destruct (sortsAfter comparefn x y) eqn:Hxy.
    + constructor; [apply IH; assumption|].
      rewrite insertSorted_Permutation.
      constructor; [apply after_asym; assumption | exact Hy].
    + constructor; [constructor; assumption|].
      constructor; [exact Hxy|].
      rewrite Forall_forall in Ps, Hy. apply Forall_forall. intros z Hz.
      exact (notAfter_trans x y z Px Py (Ps z Hz) Hxy (Hy z Hz)).
Qed.

Lemma sortArray_sorted_on (l : list A) :
  Forall P l →
  StronglySorted (λ a b, sortsAfter comparefn a b = false) (sortArray comparefn l).
Proof.
  induction l as [|x l IH]; intros Pl; simpl; [constructor|].
  apply Forall_cons in Pl. destruct Pl as [Px Pl].
  apply insertSorted_sorted_on; [exact Px | apply Forall_sortArray, Pl | apply IH, Pl].
Qed.

(** A sorted list is its own sort, and a strictly descending list sorts
    to its reverse. *)
Lemma sortArray_sorted_id (l : list A) :
  StronglySorted (λ a b, sortsAfter comparefn a b = false) l →
  sortArray comparefn l = l.
Proof.
  induction 1 as [|x l Hl IH Hx]; simpl; [reflexivity|].
  rewrite IH. destruct l as [|y l]; [reflexivity|]. simpl.
  apply Forall_cons in Hx. destruct Hx as [Hxy _]. rewrite Hxy. reflexivity.
Qed.

Lemma insertSorted_after_all (x : A) (s : list A) :
  Forall (λ y, sortsAfter comparefn x y = true) s →
  insertSorted comparefn x s = (s ++ [x])%list.
Proof.
  induction 1 as [|y s Hy Hs IH]; simpl; [reflexivity|].
  rewrite Hy, IH. reflexivity.
Qed.

Lemma sortArray_descending (l : list A) :
  StronglySorted (λ a b, sortsAfter comparefn a b = true) l →
  sortArray comparefn l = rev l.
Proof.
  induction 1 as [|x l Hl IH Hx]; simpl; [reflexivity|].
  rewrite IH. apply insertSorted_after_all.
  apply Forall_forall. intros y Hy. rewrite Forall_forall in Hx. apply Hx.
  apply list_elem_of_In, in_rev, list_elem_of_In, Hy.
Qed.

(** The place of [insertLast], by index: behind [k] elements that the
    pivot does not sort before, in front of one that it sorts before. *)
Lemma insertLast_at (pivot : A) (run : list A) :
  ∀ k,
    (∀ i y, (i < k)%nat → run !! i = Some y → sortsBefore comparefn pivot y = false) →
    (∀ y, run !! k = Some y → sortsBefore comparefn pivot y = true) →
    (k ≤ length run)%nat →
    insertLast comparefn pivot run = (take k run ++ pivot :: drop k run)%list.
Proof.
  induction run as [|z run IH]; intros k Hlow Hat Hk; simpl in *.
  - assert (k = 0)%nat as -> by lia. reflexivity.
  - destruct k as [|k]; simpl.
    + rewrite (Hat z eq_refl). reflexivity.
    + rewrite (Hlow 0%nat z) by (lia || reflexivity). f_equal.
      apply IH; [|exact Hat|lia].
      intros i y Hi Hy. apply (Hlow (S i) y); [lia | exact Hy].
Qed.

Lemma StronglySorted_lookup (R : A → A → Prop) (l : list A) :
  StronglySorted R l →
  ∀ i j x y, (i < j)%nat → l !! i = Some x → l !! j = Some y → R x y.
Proof.
  induction 1 as [|z l Hl IH Hz]; intros i j x y Hij Hx Hy.
  - discriminate.
  - destruct j as [|j]; [lia|]. destruct i as [|i]; simpl in *.
    + injection Hx as <-. rewrite Forall_forall in Hz. apply Hz.
      apply list_elem_of_lookup. exists j. exact Hy.
    + apply (IH i j); [lia | assumption | assumption].
Qed.

(** The binary search of [BinaryInsertionSort] on a sorted run. *)
Lemma binarySearch_spec (pivot : A) (run : list A) :
  P pivot → Forall P run →
  StronglySorted (λ a b, sortsAfter comparefn a b = false) run →
  ∀ steps left right,
    (right - left ≤ steps)%nat → (left ≤ right)%nat → (right ≤ length run)%nat →
    (∀ i y, (i < left)%nat → run !! i = Some y → sortsBefore comparefn pivot y = false) →
    (∀ i y, (right ≤ i)%nat → run !! i = Some y → sortsBefore comparefn pivot y = true) →
    let k := binarySearch comparefn steps pivot run left right in
    (k ≤ length run)%nat
    ∧ (∀ i y, (i < k)%nat → run !! i = Some y → sortsBefore comparefn pivot y = false)
    ∧ (∀ y, run !! k = Some y → sortsBefore comparefn pivot y = true).
Proof.
  intros Ppivot Prun Hsorted.
  assert (Pat : ∀ i y, run !! i = Some y → P y).
  { intros i y Hy. rewrite Forall_forall in Prun. apply Prun.
    apply list_elem_of_lookup. exists i. exact Hy. }
  induction steps as [|steps IH]; intros left right Hsteps Hlr Hr Hlow Hhigh;
    cbn [binarySearch]; cbv zeta.
  - assert (left = right) as -> by lia.
    split; [exact Hr | split; [exact Hlow|]].
    intros y Hy. apply (Hhigh right y); [lia | exact Hy].
  - destruct (Nat.ltb_spec left right) as [Hlt | Hge].
    + set (mid := (left + (right - left) / 2)%nat).
      assert (Hmid : (left ≤ mid < right)%nat).
      { unfold mid.
        assert ((right - left) / 2 < right - left)%nat by (apply Nat.div_lt; lia). lia. }
      destruct (lookup_lt_is_Some_2 run mid) as [element Helement]; [lia|].
      rewrite Helement.
      destruct (sortsBefore comparefn pivot element) eqn:Hcmp.
      * apply IH; [lia | lia | lia | exact Hlow |].
        intros i y Hi Hy.
        destruct (Nat.eq_dec i mid) as [-> | Hne]; [congruence|].
        assert (Hey : sortsAfter comparefn element y = false).
        { apply (StronglySorted_lookup _ run Hsorted mid i); [lia | assumption | assumption]. }
        (* pivot < element ≤ y *)
        destruct (sortsBefore comparefn pivot y) eqn:Hpy; [reflexivity|].
        rewrite (mirror pivot y Ppivot (Pat i y Hy)) in Hpy.
        pose proof (notAfter_trans element y pivot (Pat mid element Helement) (Pat i y Hy)
                      Ppivot Hey Hpy) as Hep.
        rewrite <- (mirror pivot element Ppivot (Pat mid element Helement)) in Hep.
        congruence.
      * apply IH; [lia | lia | lia | | exact Hhigh].
        intros i y Hi Hy.
        destruct (Nat.eq_dec i mid) as [-> | Hne]; [congruence|].
        destruct (Nat.lt_ge_cases i left) as [Hil | Hil]; [apply (Hlow i y Hil Hy)|].
        assert (Hye : sortsAfter comparefn y element = false).
        { apply (StronglySorted_lookup _ run Hsorted i mid); [lia | assumption | assumption]. }
        (* y ≤ element ≤ pivot *)
        rewrite (mirror pivot element Ppivot (Pat mid element Helement)) in Hcmp.
        rewrite (mirror pivot y Ppivot (Pat i y Hy)).
        exact (notAfter_trans y element pivot (Pat i y Hy) (Pat mid element Helement)
                 Ppivot Hye Hcmp).
    + assert (left = right) as -> by lia.
      split; [exact Hr | split; [exact Hlow|]].
      intros y Hy. apply (Hhigh right y); [lia | exact Hy].
Qed.

Lemma binaryInsert_insertLast (run : list A) (pivot : A) :
  P pivot → Forall P run →
  StronglySorted (λ a b, sortsAfter comparefn a b = false) run →
  binaryInsert comparefn run pivot = insertLast comparefn pivot run.
Proof.
  intros Ppivot Prun Hsorted. unfold binaryInsert.
  destruct (binarySearch_spec pivot run Ppivot Prun Hsorted (length run) 0 (length run))
    as (Hk & Hlow & Hat).
  - lia.
  - lia.
  - lia.
  - intros i y Hi. lia.
  - intros i y Hi Hy. apply lookup_lt_Some in Hy. lia.
  - symmetry. apply insertLast_at; assumption.
Qed.

(** Binary insertion of the rest into a sorted run is the sort of run and
    rest together. *)
Lemma fold_binaryInsert (rest : list A) :
  ∀ pre, Forall P pre → Forall P rest →
    fold_left (binaryInsert comparefn) rest (sortArray comparefn pre)
    = sortArray comparefn (pre ++ rest).
Proof.
  induction rest as [|x rest IH]; intros pre Ppre Prest; simpl.
  - rewrite app_nil_r. reflexivity.
  - apply Forall_cons in Prest. destruct Prest as [Px Prest].
    rewrite binaryInsert_insertLast;
      [| exact Px | apply Forall_sortArray, Ppre | apply sortArray_sorted_on, Ppre].
    rewrite <- sortArray_snoc by assumption.
    rewrite IH; [| apply Forall_app; split; [exact Ppre | repeat constructor; exact Px]
                 | exact Prest].
    rewrite <- app_assoc. reflexivity.
Qed.
(** The run that [CountAndMakeRun] finds is sorted, or strictly
    descending. *)
Lemma runTail_ascending (l : list A) :
  ∀ previous, P previous → Forall P l →
    StronglySorted (λ a b, sortsAfter comparefn a b = false)
      (previous :: take (runTail comparefn false previous l) l).
Proof.
  induction l as [|current l IH]; intros previous Pp Pl; simpl.
  - repeat constructor.
  - apply Forall_cons in Pl. destruct Pl as [Pc Pl].
    destruct (sortsBefore comparefn current previous) eqn:Hcp; simpl.
    + repeat constructor.
    + specialize (IH current Pc Pl).
      rewrite (mirror current previous Pc Pp) in Hcp.
      constructor; [exact IH|].
      constructor; [exact Hcp|].
      apply StronglySorted_inv in IH. destruct IH as [_ Hc].
      apply Forall_forall. intros z Hz.
      rewrite Forall_forall in Hc. rewrite Forall_forall in Pl.
      apply (notAfter_trans previous current z Pp Pc); [| exact Hcp | apply Hc, Hz].
      apply Pl. eapply subseteq_take, Hz.
Qed.

Lemma runTail_descending (l : list A) :
  ∀ previous, P previous → Forall P l →
    StronglySorted (λ a b, sortsAfter comparefn a b = true)
      (previous :: take (runTail comparefn true previous l) l).
Proof.
  induction l as [|current l IH]; intros previous Pp Pl; simpl.
  - repeat constructor.
  - apply Forall_cons in Pl. destruct Pl as [Pc Pl].
    destruct (sortsBefore comparefn current previous) eqn:Hcp; simpl.
    + specialize (IH current Pc Pl).
      rewrite (mirror current previous Pc Pp) in Hcp.
      constructor; [exact IH|].
      constructor; [exact Hcp|].
      apply StronglySorted_inv in IH. destruct IH as [_ Hc].
      apply Forall_forall. intros z Hz.
      rewrite Forall_forall in Hc. rewrite Forall_forall in Pl.
      apply (after_trans previous current z Pp Pc); [| exact Hcp | apply Hc, Hz].
      apply Pl. eapply subseteq_take, Hz.
    + repeat constructor.
Qed.

Lemma countAndMakeRun_sorted (l : list A) :
  Forall P l →
  ∃ n, countAndMakeRun comparefn l = (sortArray comparefn (take n l), drop n l).
Proof.
  intros Pl. destruct l as [|low [|second l]].
  - exists 0%nat. reflexivity.
  - exists 1%nat. reflexivity.
  - apply Forall_cons in Pl. destruct Pl as [Plow Pl].
    unfold countAndMakeRun.
    exists (2 + runTail comparefn (sortsBefore comparefn second low) second l)%nat.
    f_equal.
    assert (Htake :
      take (2 + runTail comparefn (sortsBefore comparefn second low) second l)
        (low :: second :: l)
      = low :: take (runTail comparefn (sortsBefore comparefn second low) low
                       (second :: l)) (second :: l)).
    { simpl. destruct (sortsBefore comparefn second low); reflexivity. }
    rewrite Htake.
    destruct (sortsBefore comparefn second low) eqn:Hd.
    + symmetry. apply sortArray_descending, runTail_descending; assumption.
    + symmetry. apply sortArray_sorted_id, runTail_ascending; assumption.
Qed.

(** On elements that the comparator orders, the sort of V8 is the stable
    insertion sort. *)
Lemma v8Sort_sortArray_on (l : list A) :
  Forall P l → v8Sort comparefn l = sortArray comparefn l.
Proof.
  intros Pl. destruct l as [|x [|y l]]; [reflexivity | reflexivity |].
  unfold v8Sort.
  destruct (countAndMakeRun_sorted (x :: y :: l) Pl) as [n Hrun].
  rewrite Hrun.
  assert (Ptake : Forall P (take n (x :: y :: l))).
  { apply Forall_forall. intros z Hz. rewrite Forall_forall in Pl.
    apply Pl. eapply subseteq_take, Hz. }
  assert (Pdrop : Forall P (drop n (x :: y :: l))).
  { apply Forall_forall. intros z Hz. rewrite Forall_forall in Pl.
    apply Pl. eapply subseteq_drop, Hz. }
  rewrite fold_binaryInsert by assumption.
  rewrite take_drop. reflexivity.
Qed.
End StableOrder.

Lemma binaryInsert_Permutation {A : Type} (comparefn : A → A → number)
    (run : list A) (pivot : A) :
  binaryInsert comparefn run pivot ≡ₚ pivot :: run.
Proof.
  unfold binaryInsert. rewrite <- Permutation_middle, take_drop. reflexivity.
Qed.

Lemma fold_binaryInsert_Permutation {A : Type} (comparefn : A → A → number)
    (rest : list A) :
  ∀ run, fold_left (binaryInsert comparefn) rest run ≡ₚ run ++ rest.
Proof.
  induction rest as [|x rest IH]; intros run; simpl.
  - rewrite app_nil_r. reflexivity.
  - rewrite IH, binaryInsert_Permutation. apply Permutation_middle.
Qed.

(** The sort of V8 rearranges its input, whatever the comparator. *)
Lemma v8Sort_Permutation {A : Type} (comparefn : A → A → number) (l : list A) :
  v8Sort comparefn l ≡ₚ l.
Proof.
  destruct l as [|x [|y l]]; [reflexivity | reflexivity |].
  unfold v8Sort, countAndMakeRun.
  rewrite fold_binaryInsert_Permutation.
  set (n := (2 + runTail comparefn (sortsBefore comparefn y x) y l)%nat).
  transitivity (take n (x :: y :: l) ++ drop n (x :: y :: l))%list.
  - apply Permutation_app_tail.
    destruct (sortsBefore comparefn y x); [|reflexivity].
    symmetry. apply Permutation_rev.
  - rewrite take_drop. reflexivity.
Qed.

(** For a consistent comparator the sort of V8 is the stable insertion
    sort. *)
Lemma v8Sort_consistent {A : Type} (comparefn : A → A → number) (l : list A) :
  consistentOrder comparefn l → v8Sort comparefn l = sortArray comparefn l.
Proof.
  intros Hc.
  apply (v8Sort_sortArray_on comparefn (λ a, a ∈ l)).
  - intros a b. apply (consistent_mirror comparefn l Hc).
  - intros a b c. apply (consistent_le_trans comparefn l Hc).
  - apply Forall_forall. auto.
Qed.

(** The sort of V8 meets the contract of [Array.prototype.sort]. *)
Lemma v8ArraySort_contract : @ArraySortContract v8ArraySort.
Proof.
  split; intros A comparefn l.
  - apply v8Sort_Permutation.
  - apply v8Sort_consistent.
Qed.

Section SortFacts.
Context `{Engine} `{ArraySort} `{!ArraySortContract}.

Lemma applySort_Permutation (data : list record) (sortField : option string)
    (sortOrder : string) :
  applySort data sortField sortOrder ≡ₚ data.
Proof.
  unfold applySort. destruct sortField as [f|]; [|reflexivity].
  destruct (String.eqb f ""); [reflexivity | apply arraySort_permutes].
Qed.

Lemma applySort_length (data : list record) (sortField : option string)
    (sortOrder : string) :
  length (applySort data sortField sortOrder) = length data.
Proof. apply Permutation_length, applySort_Permutation. Qed.

(** Without a sort field the input is returned as it is. *)
Lemma applySort_no_field (data : list record) (sortField : option string)
    (sortOrder : string) :
  noSortField sortField = true → applySort data sortField sortOrder = data.
Proof.
  unfold noSortField, applySort. destruct sortField as [f|]; [|reflexivity].
  intros ->. reflexivity.
Qed.

(** Descending order negates the comparator's result, and every other
    sort order is ascending: all sort orders have the same ties. *)
Lemma tie_sortOrder (f sortOrder : string) (a b : record) :
  tie (compareRecords f sortOrder) a b = tie (compareRecords f "asc") a b.
Proof.
  unfold tie, compareRecords. simpl.
  destruct (String.eqb sortOrder "desc"); [|reflexivity].
  destruct (match prop a f with
            | VStr s => Fin (inject_Z (localeCompare s (toString (prop b f))))
            | _ => num_sub (toNumber (prop a f)) (toNumber (prop b f))
            end) as [|q]; [reflexivity|].
  destruct q as [n d]. unfold num_neg, num_lt, Qcompare. simpl.
  destruct n; reflexivity.
Qed.

Lemma num_neg_before (v : number) :
  num_lt (num_neg v) (Fin 0) = num_lt (Fin 0) v.
Proof.
  destruct v as [|[n d]]; [reflexivity|].
  unfold num_neg, num_lt, Qcompare. simpl. destruct n; reflexivity.
Qed.

Lemma num_neg_after (v : number) :
  num_lt (Fin 0) (num_neg v) = num_lt v (Fin 0).
Proof.
  destruct v as [|[n d]]; [reflexivity|].
  unfold num_neg, num_lt, Qcompare. simpl. destruct n; reflexivity.
Qed.

Lemma compareRecords_desc (f : string) (a b : record) :
  compareRecords f "desc" a b = num_neg (compareRecords f "asc" a b).
Proof. reflexivity. Qed.

Lemma compareRecords_asc (f sortOrder : string) (a b : record) :
  String.eqb sortOrder "desc" = false →
  compareRecords f sortOrder a b = compareRecords f "asc" a b.
Proof. unfold compareRecords. intros ->. reflexivity. Qed.

(** In descending order a record sorts before another when it sorts
    after it in ascending order, and the other way round. *)
Lemma sortsBefore_desc (f : string) (a b : record) :
  sortsBefore (compareRecords f "desc") a b
  = sortsAfter (compareRecords f "asc") a b.
Proof.
  unfold sortsBefore, sortsAfter. rewrite compareRecords_desc.
  apply num_neg_before.
Qed.

Lemma sortsAfter_desc (f : string) (a b : record) :
  sortsAfter (compareRecords f "desc") a b
  = sortsBefore (compareRecords f "asc") a b.
Proof.
  unfold sortsBefore, sortsAfter. rewrite compareRecords_desc.
  apply num_neg_after.
Qed.

(** A comparator that is consistent in ascending order is consistent in
    every sort order. *)
Lemma consistentOrder_sortOrder (f sortOrder : string) (data : list record) :
  consistentOrder (compareRecords f "asc") data →
  consistentOrder (compareRecords f sortOrder) data.
Proof.
  intros Hc a b c Ha Hb Hc'.
  destruct (Hc a b c Ha Hb Hc') as (Hrefl & Hsym & Htrans & Hbefore & Hafter).
  rewrite (tie_sortOrder f sortOrder a a), (tie_sortOrder f sortOrder a b),
    (tie_sortOrder f sortOrder b a), (tie_sortOrder f sortOrder b c),
    (tie_sortOrder f sortOrder a c).
  repeat split; try assumption.
  - destruct (String.eqb sortOrder "desc") eqn:Hso.
    + apply String.eqb_eq in Hso. subst sortOrder.
      rewrite !sortsBefore_desc. exact Hafter.
    + unfold sortsBefore. rewrite !(compareRecords_asc f sortOrder) by exact Hso.
      exact Hbefore.
  - destruct (String.eqb sortOrder "desc") eqn:Hso.
    + apply String.eqb_eq in Hso. subst sortOrder.
      rewrite !sortsAfter_desc. exact Hbefore.
    + unfold sortsAfter. rewrite !(compareRecords_asc f sortOrder) by exact Hso.
      exact Hafter.
Qed.

(** Numbers at the sort field make the comparator consistent. *)
Lemma numericField_consistent (f sortOrder : string) (data : list record) :
  numericField f data → consistentOrder (compareRecords f sortOrder) data.
Proof.
  intros Hnum. apply consistentOrder_sortOrder.
  intros a b c Ha Hb Hc.
  destruct (Hnum a Ha) as [qa Hqa], (Hnum b Hb) as [qb Hqb], (Hnum c Hc) as [qc Hqc].
  unfold tie, sortsBefore, sortsAfter, compareRecords. rewrite Hqa, Hqb, Hqc.
  simpl String.eqb. cbv iota. simpl toNumber. simpl num_sub.
  rewrite !andb_true_iff, !negb_true_iff, !num_lt_Fin, !num_lt_Fin_false.
  repeat split; intros; lra.
Qed.

(** C7, as the code has it.  [applySort] is stable in ascending and in
    descending order when the comparator is a consistent comparison of
    the records: when record [a] precedes record [b] in the input and
    their sort keys compare equal (the comparator's result for them is
    zero or NaN), [a] precedes [b] in the output of either sort order.
    The comparator is consistent when, on the records to sort, ties are
    reflexive, symmetric and transitive, and "sorts before" and "sorts
    after" are transitive; a record without the sort field among records
    with different keys breaks this, and the order is then the
    implementation's. *)
Theorem applySort_stable (data : list record) (sortField : option string)
    (a b : record) :
  precedes a b data →
  (∀ f, sortField = Some f → tie (compareRecords f "asc") a b = true) →
  (∀ f, sortField = Some f → consistentOrder (compareRecords f "asc") data) →
  ∀ sortOrder, precedes a b (applySort data sortField sortOrder).
Proof.
  intros Hab Htie Hconsistent sortOrder. unfold applySort.
  destruct sortField as [f|]; [|exact Hab].
  destruct (String.eqb f ""); [exact Hab|].
  rewrite arraySort_consistent
    by (apply consistentOrder_sortOrder, Hconsistent; reflexivity).
  apply sortArray_keeps_order; [exact Hab|].
  apply tie_not_sortsAfter. rewrite tie_sortOrder. apply Htie. reflexivity.
Qed.

(** C8, as the code has it.  The comparator does not give a missing
    value a place in the order: when the sort field is missing from the
    first record, or missing from the second while the first record's
    value is not a text, the result is NaN in both sort orders, which
    the sort reads as a tie. *)
Theorem compareRecords_missing (sortField sortOrder : string) (a b : record) :
  prop a sortField = VUndefined
  ∨ (prop b sortField = VUndefined ∧ ∀ s, prop a sortField ≠ VStr s) →
  compareRecords sortField sortOrder a b = NaN
  ∧ tie (compareRecords sortField sortOrder) a b = true.
Proof.
  intros Hmiss.
  assert (Hnan : compareRecords sortField sortOrder a b = NaN).
  { unfold compareRecords. destruct Hmiss as [Ha | [Hb Ha]].
    - rewrite Ha. simpl. destruct (String.eqb sortOrder "desc"); reflexivity.
    - rewrite Hb. destruct (prop a sortField) as [| |s|n|text].
      + simpl. destruct (String.eqb sortOrder "desc"); reflexivity.
      + simpl. destruct (String.eqb sortOrder "desc"); reflexivity.
      + exfalso. apply (Ha s). reflexivity.
      + simpl. destruct n; simpl;
          destruct (String.eqb sortOrder "desc"); reflexivity.
      + simpl. destruct (stringToNumber text); simpl;
          destruct (String.eqb sortOrder "desc"); reflexivity. }
  split; [exact Hnan|]. unfold tie. rewrite Hnan. reflexivity.
Qed.

(** Against a text, a missing value is compared as the text
    [undefined]. *)
Lemma compareRecords_text_missing (sortField : string) (a b : record) (s : string) :
  prop a sortField = VStr s → prop b sortField = VUndefined →
  compareRecords sortField "asc" a b = Fin (inject_Z (localeCompare s "undefined")).
Proof.
  intros Ha Hb. unfold compareRecords. rewrite Ha, Hb. reflexivity.
Qed.
End SortFacts.

(** ** The pagination stage *)

(** For a page index and a page size that are not negative, [slice] cuts
    the window of [limit] rows that starts at row [start]. *)
Lemma slice_window {A : Type} (l : list A) (start limit : Z) :
  0 ≤ start → 0 ≤ limit →
  slice l start (start + limit) = take (Z.to_nat limit) (drop (Z.to_nat start) l).
Proof.
  intros Hs Hl. unfold slice.
  destruct (Z.ltb_spec start 0) as [?|_]; [lia|].
  destruct (Z.ltb_spec (start + limit) 0) as [?|_]; [lia|].
  destruct (Z.le_gt_cases (Z.of_nat (length l)) start) as [Hout | Hin].
  - rewrite Z.min_r by lia. rewrite !drop_ge by lia. rewrite !take_nil. reflexivity.
  - rewrite (Z.min_l start) by lia.
    destruct (Z.le_gt_cases (start + limit) (Z.of_nat (length l))) as [Hfit | Hcut].
    + rewrite Z.min_l by lia. f_equal. lia.
    + rewrite Z.min_r by lia. rewrite !take_ge; [reflexivity| |];
        rewrite length_drop; lia.
Qed.

Lemma paginate_data {A : Type} (rows : list A) (page limit : Z) :
  0 ≤ page → 0 < limit →
  data (paginate rows page limit) =
  take (Z.to_nat limit) (drop (Z.to_nat (page * limit)) rows).
Proof. intros Hp Hl. unfold paginate. simpl. apply slice_window; nia. Qed.

Lemma paginate_hasMore {A : Type} (rows : list A) (page limit : Z) :
  hasMore (paginate rows page limit) = true
  ↔ page * limit + limit < Z.of_nat (length rows).
Proof. unfold paginate. simpl. apply Z.ltb_lt. Qed.

Lemma loadPages_last {A : Type} (fuel : nat) (rows : list A) (limit page : Z) :
  hasMore (paginate rows page limit) = false →
  loadPages fuel rows limit page = Some (data (paginate rows page limit)).
Proof. intros Hmore. destruct fuel; cbn [loadPages]; cbv zeta; rewrite Hmore; reflexivity. Qed.

Lemma loadPages_next {A : Type} (fuel : nat) (rows : list A) (limit page : Z) :
  hasMore (paginate rows page limit) = true →
  loadPages (S fuel) rows limit page =
  match loadPages fuel rows limit (page + 1) with
  | Some rest => Some (data (paginate rows page limit) ++ rest)%list
  | None => None
  end.
Proof. intros Hmore. cbn [loadPages]. cbv zeta. rewrite Hmore. reflexivity. Qed.

(** From page [page] on, the loop collects the rows from offset
    [page * limit] to the end, given fuel for the rows that remain. *)
Lemma loadPages_from {A : Type} (rows : list A) (limit : Z) (fuel : nat) :
  0 < limit →
  ∀ page, 0 ≤ page →
    Z.of_nat (length rows) - page * limit ≤ Z.of_nat fuel →
    loadPages fuel rows limit page = Some (drop (Z.to_nat (page * limit)) rows).
Proof.
  intros Hl. induction fuel as [|fuel IH]; intros page Hp Hfuel;
    destruct (hasMore (paginate rows page limit)) eqn:Hmore.
  - apply paginate_hasMore in Hmore. lia.
  - rewrite loadPages_last, paginate_data by assumption. f_equal.
    apply take_ge. rewrite length_drop. lia.
  - rewrite loadPages_next by assumption.
    apply paginate_hasMore in Hmore.
    rewrite (IH (page + 1)) by lia.
    rewrite paginate_data by assumption. f_equal.
    replace (Z.to_nat ((page + 1) * limit))
      with (Z.to_nat (page * limit) + Z.to_nat limit)%nat by nia.
    rewrite <- drop_drop. apply take_drop.
  - assert (Hend : Z.of_nat (length rows) ≤ page * limit + limit).
    { destruct (Z.le_gt_cases (Z.of_nat (length rows)) (page * limit + limit))
        as [Hle | Hgt]; [exact Hle|].
      apply paginate_hasMore in Hgt. congruence. }
    rewrite loadPages_last, paginate_data by assumption. f_equal.
    apply take_ge. rewrite length_drop. nia.
Qed.

(** C2. For every sequence and every positive page size, the pages 0, 1,
    2, ... up to the first page without [hasMore], concatenated, are the
    sequence itself: every row once, in order.  The loop ends within as
    many further requests as the sequence has rows. *)
Theorem loadPages_all {A : Type} (rows : list A) (limit : Z) (fuel : nat) :
  0 < limit → (length rows ≤ fuel)%nat →
  loadPages fuel rows limit 0 = Some rows.
Proof.
  intros Hl Hfuel. rewrite loadPages_from by lia. reflexivity.
Qed.

Section HandlerFacts.
Context `{Engine} `{ArraySort} `{!ArraySortContract}.

(** C3. [total] is the length of the sequence that [paginate] is given,
    which in the handler is the number of records after filtering; and
    [hasMore] is true exactly when the end offset of the page,
    [page * limit + limit], is below [total]. *)
Theorem paginate_total_hasMore (rows : list record) (page limit : Z) :
  total (paginate rows page limit) = Z.of_nat (length rows)
  ∧ (hasMore (paginate rows page limit) = true
     ↔ page * limit + limit < total (paginate rows page limit))
  ∧ (∀ sortField sortOrder filters logic,
       total (getRecords rows page limit sortField sortOrder filters logic)
       = Z.of_nat (length (applyFilters rows filters logic))).
Proof.
  split; [reflexivity | split].
  - apply paginate_hasMore.
  - intros sortField sortOrder filters logic. unfold getRecords. simpl.
    rewrite applySort_length. reflexivity.
Qed.

(** C9, as the code has it.  For a page size that is not negative, a
    page that starts at or beyond the end of the sequence is empty and
    has no [hasMore]; the handler returns this response, and no error,
    also when the filter set is empty.  (A window that lies before the
    start of the sequence is empty too, but has [hasMore].) *)
Theorem paginate_out_of_range (rows : list record) (page limit : Z) :
  0 ≤ limit → Z.of_nat (length rows) ≤ page * limit →
  paginate rows page limit = mkApiResponse [] (Z.of_nat (length rows)) false
  ∧ (∀ sortField sortOrder logic,
       getRecords rows page limit sortField sortOrder (Some []) logic
       = mkApiResponse [] (Z.of_nat (length rows)) false).
Proof.
  intros Hl Hout.
  assert (Hpage : ∀ l : list record, length l = length rows →
            paginate l page limit = mkApiResponse [] (Z.of_nat (length rows)) false).
  { intros l Hlen. unfold paginate. rewrite Hlen. f_equal.
    - rewrite slice_window by lia. rewrite drop_ge by lia. apply take_nil.
    - apply Z.ltb_ge. lia. }
  split.
  - apply Hpage. reflexivity.
  - intros sortField sortOrder logic. unfold getRecords. simpl.
    apply Hpage, applySort_length.
Qed.
End HandlerFacts.

(** ** The scenarios of the specification, on [asciiEngine] *)

Section Scenarios.
Import Scenario.
Local Existing Instance asciiEngine.
Local Existing Instance v8ArraySort.
Local Existing Instance v8ArraySort_contract.

Example scenario_filter_age :
  applyFilters people (Some [ageAtLeast25]) "AND" = [Bob; Amy; Cid].
Proof. vm_compute. reflexivity. Qed.

Example scenario_sort_age :
  applySort people (Some "age") "asc" = [Amy; Cid; Bob].
Proof. vm_compute. reflexivity. Qed.

Example scenario_page_0 :
  getRecords people 0 2 (Some "age") "asc" (Some [ageAtLeast25]) "AND"
  = mkApiResponse [Amy; Cid] 3 true.
Proof. vm_compute. reflexivity. Qed.

Example scenario_page_1 :
  getRecords people 1 2 (Some "age") "asc" (Some [ageAtLeast25]) "AND"
  = mkApiResponse [Bob] 3 false.
Proof. vm_compute. reflexivity. Qed.

Example scenario_or :
  applyFilters people (Some [nameContainsO; ageBelow26]) "OR" = [Bob; Amy; Cid].
Proof. vm_compute. reflexivity. Qed.

(** With ties, descending order is not the reverse of ascending order:
    Amy stays before Cid. *)
Example scenario_sort_age_desc :
  applySort people (Some "age") "desc" = [Bob; Amy; Cid].
Proof. vm_compute. reflexivity. Qed.

(** The clamping of [slice], and a page size of zero, with which the
    page loop never reaches a page without [hasMore]. *)
Example slice_negative_start : slice [1; 2; 3; 4; 5] (-2) 10 = [4; 5].
Proof. reflexivity. Qed.

Example slice_end_before_start : slice [1; 2; 3; 4; 5] 4 2 = [].
Proof. reflexivity. Qed.

Example loadPages_zero_limit : loadPages 100 [1; 2; 3] 0 0 = None.
Proof. vm_compute. reflexivity. Qed.

(** Outside the page windows of the data model (page index at least 0,
    page size above 0) the window is not a page of the sequence: a
    negative page index gives an empty page that has [hasMore]. *)
Example paginate_negative_page :
  paginate [1; 2; 3] (-1) 2 = mkApiResponse [] 3 true.
Proof. reflexivity. Qed.

(** *** Instances of the theorems *)

Lemma applyFilters_combinator_witness :
  [nameContainsO; ageBelow26] ≠ []
  ∧ applyFilters people (Some [nameContainsO; ageBelow26]) "OR"
    = filter (λ r, Exists (λ c, evalCondition r c = true)
                     [nameContainsO; ageBelow26]) people.
Proof.
  split; [discriminate|].
  apply (applyFilters_combinator people [nameContainsO; ageBelow26] "OR");
    [discriminate | reflexivity].
Defined.

Lemma loadPages_all_witness :
  0 < 2 ∧ (length people ≤ 3)%nat ∧ loadPages 3 people 2 0 = Some people.
Proof.
  split; [lia | split; [simpl; lia|]].
  apply (loadPages_all people 2 3); [lia | simpl; lia].
Defined.

Lemma evalCondition_absent_witness :
  (Amy !! field cityIsUndefined = None ∧ inheritedText (field cityIsUndefined) = None)
  ∧ evalCondition Amy cityIsUndefined = false.
Proof.
  split; [split; vm_compute; reflexivity|].
  apply (evalCondition_absent Amy cityIsUndefined).
  left. split; vm_compute; reflexivity.
Defined.

(** C5, as stated, fails for a field name that the record does not have
    but inherits: no record of the scenarios has a property [constructor],
    yet [record["constructor"]] is the function [Object], whose text
    contains [native], so the condition evaluates to true. *)
Lemma evalCondition_absent_counterexample :
  Amy !! "constructor" = None
  ∧ prop Amy "constructor" = VObject "function Object() { [native code] }"
  ∧ evalCondition Amy (mkFilter "constructor" "contains" (VStr "native")) = true.
Proof. repeat split; vm_compute; reflexivity. Qed.

Lemma evalCondition_equals_witness :
  operator nameIsAMY = "equals"
  ∧ (evalCondition Amy nameIsAMY = true
     ↔ absent (prop Amy (field nameIsAMY)) = false
       ∧ sameTextIgnoringCase (prop Amy (field nameIsAMY)) (value nameIsAMY)).
Proof.
  split; [reflexivity|].
  apply (evalCondition_equals Amy nameIsAMY). reflexivity.
Defined.

(** C6, as stated, fails on a record without the field: the text of the
    missing value is [undefined], which equals the condition's value up
    to letter case, and the condition still evaluates to false. *)
Lemma evalCondition_equals_counterexample :
  operator cityIsUndefined = "equals"
  ∧ sameTextIgnoringCase (prop Amy (field cityIsUndefined)) (value cityIsUndefined)
  ∧ evalCondition Amy cityIsUndefined = false
  ∧ ¬ (evalCondition Amy cityIsUndefined = true
       ↔ sameTextIgnoringCase (prop Amy (field cityIsUndefined))
           (value cityIsUndefined)).
Proof.
  assert (Hsame : sameTextIgnoringCase (prop Amy (field cityIsUndefined))
                    (value cityIsUndefined)) by (vm_compute; reflexivity).
  assert (Hfalse : evalCondition Amy cityIsUndefined = false)
    by (vm_compute; reflexivity).
  repeat split; try assumption.
  intros [_ Hiff]. specialize (Hiff Hsame). congruence.
Defined.

Lemma precedes_Amy_Cid : precedes Amy Cid people.
Proof. exists [Bob], [], []. reflexivity. Defined.

Lemma people_ages : numericField "age" people.
Proof.
  intros r Hr. repeat (apply elem_of_cons in Hr; destruct Hr as [-> | Hr]);
    [eexists; vm_compute; reflexivity .. | apply elem_of_nil in Hr; contradiction].
Defined.

Lemma applySort_stable_witness :
  precedes Amy Cid people
  ∧ tie (compareRecords "age" "asc") Amy Cid = true
  ∧ precedes Amy Cid (applySort people (Some "age") "asc")
  ∧ precedes Amy Cid (applySort people (Some "age") "desc").
Proof.
  assert (Htie : ∀ f, Some "age" = Some f →
            tie (compareRecords f "asc") Amy Cid = true).
  { intros f [= <-]. vm_compute. reflexivity. }
  assert (Hconsistent : ∀ f, Some "age" = Some f →
            consistentOrder (compareRecords f "asc") people).
  { intros f [= <-]. apply numericField_consistent, people_ages. }
  split; [exact precedes_Amy_Cid | split; [vm_compute; reflexivity|]].
  split.
  - exact (applySort_stable people (Some "age") Amy Cid
             precedes_Amy_Cid Htie Hconsistent "asc").
  - exact (applySort_stable people (Some "age") Amy Cid
             precedes_Amy_Cid Htie Hconsistent "desc").
Defined.

Lemma precedes_Ann_Ben : precedes Ann Ben mixed.
Proof. exists [Dee; Dot; Xia; Dov], [Zoe], []. reflexivity. Qed.

(** C7, counterexample, on the sort of V8.  Ann and Ben are both 25, and
    Ann comes first in the input; three records have no age, so that
    the comparator is not consistent.  Sorted by age, Ben comes before
    Ann. *)
Lemma applySort_stable_counterexample :
  precedes Ann Ben mixed
  ∧ tie (compareRecords "age" "asc") Ann Ben = true
  ∧ applySort mixed (Some "age") "asc" = [Dee; Dot; Zoe; Ben; Xia; Dov; Ann]
  ∧ ¬ precedes Ann Ben (applySort mixed (Some "age") "asc").
Proof.
  assert (Hsorted : applySort mixed (Some "age") "asc"
                    = [Dee; Dot; Zoe; Ben; Xia; Dov; Ann]).
  { vm_compute. reflexivity. }
  split; [exact precedes_Ann_Ben | split; [vm_compute; reflexivity|]].
  split; [exact Hsorted|].
  rewrite Hsorted. intros Hp. apply (precedes_map nameOf) in Hp.
  change (precedes "Ann" "Ben" ["Dee"; "Dot"; "Zoe"; "Ben"; "Xia"; "Dov"; "Ann"]) in Hp.
  repeat (apply precedes_cons_inv in Hp;
          destruct Hp as [[Heq Hin] | Hp];
          [try discriminate Heq; apply elem_of_nil in Hin; exact Hin|]).
  exact (precedes_nil _ _ Hp).
Qed.

(** The sort of V8 on the people of the scenarios with Dee, who has no
    age, among them. *)
Example applySort_people_with_Dee :
  applySort [Bob; Amy; Dee; Cid] (Some "age") "asc" = [Amy; Cid; Bob; Dee].
Proof. vm_compute. reflexivity. Qed.

Lemma compareRecords_missing_witness :
  prop Dee "age" = VUndefined
  ∧ compareRecords "age" "asc" Dee Amy = NaN
  ∧ tie (compareRecords "age" "asc") Dee Amy = true.
Proof.
  split; [vm_compute; reflexivity|].
  apply (compareRecords_missing "age" "asc" Dee Amy).
  left. vm_compute. reflexivity.
Defined.

(** C8, as stated, fails: with a record that lacks the sort field the
    comparator is not an ordering.  Bob (30) ties with Dee (no age) and
    Dee ties with Amy (25), in both argument orders, yet Bob sorts after
    Amy; and the ascending sort leaves Bob before Amy. *)
Lemma compareRecords_missing_counterexample :
  tie (compareRecords "age" "asc") Dee Amy = true
  ∧ tie (compareRecords "age" "asc") Amy Dee = true
  ∧ ¬ consistentComparator (compareRecords "age" "asc") [Bob; Dee; Amy]
  ∧ applySort [Bob; Dee; Amy] (Some "age") "asc" = [Bob; Dee; Amy].
Proof.
  split; [vm_compute; reflexivity|].
  split; [vm_compute; reflexivity|].
  split; [|vm_compute; reflexivity].
  intros Hc.
  destruct (Hc Bob Dee Amy) as (_ & _ & Htrans & _).
  - apply list_elem_of_In. simpl. tauto.
  - apply list_elem_of_In. simpl. tauto.
  - apply list_elem_of_In. simpl. tauto.
  - assert (Hba : tie (compareRecords "age" "asc") Bob Amy = true).
    { apply Htrans; vm_compute; reflexivity. }
    vm_compute in Hba. discriminate.
Defined.

Lemma paginate_total_hasMore_witness :
  total (paginate people 0 2) = 3
  ∧ hasMore (paginate people 0 2) = true
  ∧ total (getRecords people 0 2 (Some "age") "asc" (Some [ageBelow26]) "AND") = 2.
Proof.
  destruct (paginate_total_hasMore people 0 2) as (Htotal & Hmore & Hhandler).
  split; [exact Htotal|].
  split; [apply Hmore; vm_compute; reflexivity|].
  rewrite Hhandler. vm_compute. reflexivity.
Defined.

Lemma paginate_out_of_range_witness :
  0 ≤ 2 ∧ Z.of_nat (length people) ≤ 2 * 2
  ∧ paginate people 2 2 = mkApiResponse [] 3 false.
Proof.
  split; [lia | split; [simpl; lia|]].
  apply (paginate_out_of_range people 2 2); [lia | simpl; lia].
Defined.

(** C9, counterexample.  The page of index -1 and size 2 of three
    people is the window from row -2 to row 0, out of the range of the
    sequence: [slice(-2, 0)] is empty, and [hasMore] is true, since the
    end of the window lies before the end of the sequence.  The handler
    returns the same. *)
Lemma paginate_out_of_range_counterexample :
  slice people ((-1) * 2) ((-1) * 2 + 2) = []
  ∧ paginate people (-1) 2 = mkApiResponse [] 3 true
  ∧ getRecords people (-1) 2 None "asc" (Some []) "AND" = mkApiResponse [] 3 true.
Proof. repeat split; vm_compute; reflexivity. Qed.
End Scenarios.


(** * Further properties *)

(** ** Text predicates *)

Lemma append_String (c : ascii) (s t : string) :
  String c s +:+ t = String c (s +:+ t).
Proof. reflexivity. Qed.

Lemma append_empty_l (t : string) : "" +:+ t = t.
Proof. reflexivity. Qed.

Lemma append_empty_r (s : string) : s +:+ "" = s.
Proof.
  induction s as [|c s IH]; [reflexivity|].
  rewrite append_String, IH. reflexivity.
Qed.

Lemma length_append (s t : string) :
  String.length (s +:+ t) = (String.length s + String.length t)%nat.
Proof.
  induction s as [|c s IH]; [reflexivity|].
  rewrite append_String. simpl. rewrite IH. reflexivity.
Qed.

(** [s.startsWith(t)] holds exactly when [s] is [t] followed by a rest. *)
Lemma startsWith_iff (s t : string) :
  startsWith s t = true ↔ ∃ post, s = t +:+ post.
Proof.
  unfold startsWith. revert s. induction t as [|c t IH]; intros s.
  - split; [intros _; exists s; reflexivity | intros _; destruct s; reflexivity].
  - destruct s as [|d s]; simpl.
    + split; [discriminate | intros [post Hpost]; discriminate].
    + destruct (ascii_dec c d) as [->|Hne].
      * rewrite IH. split; intros [post Hpost]; exists post;
          rewrite ?append_String in *; congruence.
      * split; [discriminate|].
        intros [post Hpost]. rewrite append_String in Hpost. congruence.
Qed.

Lemma includes_empty (t : string) : includes "" t = startsWith "" t.
Proof. unfold startsWith. simpl. apply orb_false_r. Qed.

Lemma includes_String (c : ascii) (s t : string) :
  includes (String c s) t = startsWith (String c s) t || includes s t.
Proof. reflexivity. Qed.

(** [s.includes(t)] holds exactly when [t] occurs in [s]. *)
Lemma includes_iff (s t : string) :
  includes s t = true ↔ ∃ pre post, s = pre +:+ t +:+ post.
Proof.
  induction s as [|c s IH].
  - rewrite includes_empty, startsWith_iff. split.
    + intros [post Hpost]. exists "", post. exact Hpost.
    + intros (pre & post & Hs). destruct pre; [|discriminate].
      exists post. exact Hs.
  - rewrite includes_String, orb_true_iff, IH, startsWith_iff. split.
    + intros [[post Hpost] | (pre & post & ->)].
      * exists "", post. exact Hpost.
      * exists (String c pre), post. reflexivity.
    + intros (pre & post & Hs). destruct pre as [|d pre].
      * left. exists post. exact Hs.
      * right. exists pre, post. rewrite append_String in Hs. congruence.
Qed.

Lemma substring_skip (pre u : string) (m : nat) :
  substring (String.length pre) m (pre +:+ u) = substring 0 m u.
Proof. induction pre as [|c pre IH]; [reflexivity | exact IH]. Qed.

Lemma substring_whole (t : string) : substring 0 (String.length t) t = t.
Proof. induction t as [|c t IH]; simpl; [reflexivity | rewrite IH; reflexivity]. Qed.

Lemma substring_split (s : string) (k : nat) :
  (k ≤ String.length s)%nat →
  s = substring 0 k s +:+ substring k (String.length s - k) s.
Proof.
  revert k. induction s as [|c s IH]; intros k Hk; simpl in *.
  - destruct k; reflexivity.
  - destruct k as [|k]; simpl.
    + rewrite substring_whole. reflexivity.
    + rewrite append_String, <- IH by lia. reflexivity.
Qed.

(** [s.endsWith(t)] holds exactly when [s] is a text followed by [t]. *)
Lemma endsWith_iff (s t : string) :
  endsWith s t = true ↔ ∃ pre, s = pre +:+ t.
Proof.
  unfold endsWith. rewrite andb_true_iff, Nat.leb_le, String.eqb_eq. split.
  - intros [Hlen Hsub].
    exists (substring 0 (String.length s - String.length t) s).
    pose proof (substring_split s (String.length s - String.length t)) as Hs.
    replace (String.length s - (String.length s - String.length t))%nat
      with (String.length t) in Hs by lia.
    rewrite Hsub in Hs. apply Hs. lia.
  - intros [pre ->]. rewrite length_append. split; [lia|].
    replace (String.length pre + String.length t - String.length t)%nat
      with (String.length pre) by lia.
    rewrite substring_skip. apply substring_whole.
Qed.

(** ** More on the conditions *)

Lemma List_filter_filter {A : Type} (f g : A → bool) (l : list A) :
  List.filter g (List.filter f l) = List.filter (λ x, f x && g x) l.
Proof.
  induction l as [|x l IH]; simpl; [reflexivity|].
  destruct (f x); simpl; [destruct (g x)|]; rewrite IH; reflexivity.
Qed.

Lemma List_filter_sublist_mono {A : Type} (f g : A → bool) (l : list A) :
  (∀ x, f x = true → g x = true) →
  List.filter f l `sublist_of` List.filter g l.
Proof.
  intros Hfg. induction l as [|x l IH]; simpl; [constructor|].
  destruct (f x) eqn:Hf.
  - rewrite (Hfg x Hf). apply sublist_skip, IH.
  - destruct (g x); [apply sublist_cons|]; exact IH.
Qed.

Lemma List_filter_all {A : Type} (f : A → bool) (l : list A) :
  (∀ x, x ∈ l → f x = true) → List.filter f l = l.
Proof.
  induction l as [|x l IH]; intros Hall; simpl; [reflexivity|].
  rewrite (Hall x) by left. rewrite IH; [reflexivity|].
  intros y Hy. apply Hall. right. exact Hy.
Qed.

Section ConditionFacts.
Context `{Engine}.

(** The verdict of each operator on a record, the guard on absent values
    apart. *)
Lemma evalCondition_op (r : record) (c : Filter) :
  evalCondition r c =
  negb (absent (prop r (field c))) &&
  (let v := prop r (field c) in
   let lv := toLowerCase (toString v) in
   let lf := toLowerCase (toString (value c)) in
   if String.eqb (operator c) "equals" then String.eqb lv lf
   else if String.eqb (operator c) "contains" then includes lv lf
   else if String.eqb (operator c) ">" then num_gt (toNumber v) (toNumber (value c))
   else if String.eqb (operator c) "<" then num_lt (toNumber v) (toNumber (value c))
   else if String.eqb (operator c) ">=" then num_ge (toNumber v) (toNumber (value c))
   else if String.eqb (operator c) "<=" then num_le (toNumber v) (toNumber (value c))
   else if String.eqb (operator c) "startsWith" then startsWith lv lf
   else if String.eqb (operator c) "endsWith" then endsWith lv lf
   else false).
Proof. unfold evalCondition. destruct (absent (prop r (field c))); reflexivity. Qed.

(** X1. On a value that is present, [contains], [startsWith] and
    [endsWith] test whether the lower-cased text of the condition's value
    occurs in, begins or ends the lower-cased text of the record's
    value. *)
Theorem evalCondition_text_operators (r : record) (c : Filter) :
  absent (prop r (field c)) = false →
  let lv := toLowerCase (toString (prop r (field c))) in
  let lf := toLowerCase (toString (value c)) in
  (operator c = "contains" →
     (evalCondition r c = true ↔ ∃ pre post, lv = pre +:+ lf +:+ post))
  ∧ (operator c = "startsWith" →
     (evalCondition r c = true ↔ ∃ post, lv = lf +:+ post))
  ∧ (operator c = "endsWith" →
     (evalCondition r c = true ↔ ∃ pre, lv = pre +:+ lf)).
Proof.
  intros Hpresent lv lf. rewrite evalCondition_op, Hpresent. simpl.
  split; [|split]; intros ->; simpl.
  - apply includes_iff.
  - apply startsWith_iff.
  - apply endsWith_iff.
Qed.

(** X2. The text operators are ordered by strength.  For one field and
    one value, a record that matches under [equals] matches under
    [startsWith] and [endsWith], and a record that matches under either
    of these matches under [contains]. *)
Theorem evalCondition_text_strength (r : record) (f : string) (v : jsval) :
  (evalCondition r (mkFilter f "equals" v) = true →
     evalCondition r (mkFilter f "startsWith" v) = true
     ∧ evalCondition r (mkFilter f "endsWith" v) = true)
  ∧ (evalCondition r (mkFilter f "startsWith" v) = true →
     evalCondition r (mkFilter f "contains" v) = true)
  ∧ (evalCondition r (mkFilter f "endsWith" v) = true →
     evalCondition r (mkFilter f "contains" v) = true).
Proof.
  rewrite !evalCondition_op. simpl.
  destruct (absent (prop r f)); simpl;
    [repeat split; discriminate|].
  rewrite String.eqb_eq, startsWith_iff, endsWith_iff, includes_iff.
  split; [|split].
  - intros ->. split.
    + exists "". symmetry. apply append_empty_r.
    + exists "". reflexivity.
  - intros [post ->]. exists "", post. reflexivity.
  - intros [pre ->]. exists pre, "". rewrite append_empty_r. reflexivity.
Qed.
End ConditionFacts.

(** ** Numeric conditions *)

Section NumericFacts.
Context `{Engine}.

(** X3. When the record's value and the condition's value both convert to
    numbers, the four numeric operators compare these numbers: [>] and
    [<] strictly, [>=] and [<=] weakly. *)
Theorem evalCondition_numeric (r : record) (f : string) (v : jsval) (p q : Q) :
  absent (prop r f) = false →
  toNumber (prop r f) = Fin p → toNumber v = Fin q →
  (evalCondition r (mkFilter f ">" v) = true ↔ (q < p)%Q)
  ∧ (evalCondition r (mkFilter f "<" v) = true ↔ (p < q)%Q)
  ∧ (evalCondition r (mkFilter f ">=" v) = true ↔ (q <= p)%Q)
  ∧ (evalCondition r (mkFilter f "<=" v) = true ↔ (p <= q)%Q).
Proof.
  intros Hpresent Hp Hq. rewrite !evalCondition_op. simpl.
  rewrite Hpresent, Hp, Hq. simpl negb. rewrite !andb_true_l.
  unfold num_gt, num_ge.
  repeat split; try apply num_lt_Fin; try apply num_le_Fin;
    try (apply num_lt_Fin; assumption); try (apply num_le_Fin; assumption).
Qed.

(** X4. A numeric operator is false on every record when the condition's
    value, or the record's value, does not convert to a number: NaN
    compares false with everything. *)
Theorem evalCondition_numeric_NaN (r : record) (c : Filter) :
  operator c ∈ [">"; "<"; ">="; "<="] →
  toNumber (value c) = NaN ∨ toNumber (prop r (field c)) = NaN →
  evalCondition r c = false.
Proof.
  intros Hop Hnan. rewrite evalCondition_op.
  assert (Hcmp : ∀ a b, (b = NaN ∨ a = NaN) →
            num_gt a b = false ∧ num_lt a b = false
            ∧ num_ge a b = false ∧ num_le a b = false).
  { intros a b [-> | ->]; [destruct a | destruct b]; repeat split; reflexivity. }
  destruct (Hcmp _ _ Hnan) as (Hgt & Hlt & Hge & Hle).
  apply andb_false_iff. right.
  repeat (apply elem_of_cons in Hop; destruct Hop as [-> | Hop]);
    [simpl; assumption ..|].
  apply elem_of_nil in Hop. contradiction.
Qed.
End NumericFacts.

(** ** Operators and combinators *)

Section CombinatorFacts.
Context `{Engine}.

Lemma evalCondition_unknown_operator (r : record) (c : Filter) :
  operator c ∉ App.OPERATORS → evalCondition r c = false.
Proof.
  intros Hop. unfold App.OPERATORS in Hop.
  repeat (apply not_elem_of_cons in Hop; destruct Hop as [?%String.eqb_neq Hop]).
  rewrite evalCondition_op.
  repeat match goal with Hne : String.eqb _ _ = false |- _ => rewrite Hne; clear Hne end.
  apply andb_false_r.
Qed.

(** X5. The switch of the backend knows exactly the operators that the
    frontend offers: for each of them some condition is true on some
    record, and a condition with any other operator is false on every
    record. *)
Theorem evalCondition_operators (op : string) :
  (∃ r f v, evalCondition r (mkFilter f op v) = true) ↔ op ∈ App.OPERATORS.
Proof.
  split.
  - intros (r & f & v & Htrue).
    destruct (decide (op ∈ App.OPERATORS)) as [Hin | Hout]; [exact Hin|].
    rewrite (evalCondition_unknown_operator r (mkFilter f op v) Hout) in Htrue.
    discriminate.
  - intros Hop. unfold App.OPERATORS in Hop.
    assert (Htext : ∀ o, prop (<["f" := VStr "a"]> ∅) (field (mkFilter "f" o (VStr "a")))
                         = VStr "a").
    { intros o. unfold prop. simpl. rewrite lookup_insert_eq. reflexivity. }
    assert (Hnum : ∀ o v, prop (<["f" := VNum (Fin 1)]> ∅) (field (mkFilter "f" o v))
                          = VNum (Fin 1)).
    { intros o v. unfold prop. simpl. rewrite lookup_insert_eq. reflexivity. }
    repeat (apply elem_of_cons in Hop; destruct Hop as [-> | Hop]).
    + exists (<["f" := VStr "a"]> ∅), "f", (VStr "a").
      rewrite evalCondition_op, Htext. simpl. apply String.eqb_refl.
    + exists (<["f" := VStr "a"]> ∅), "f", (VStr "a").
      rewrite evalCondition_op, Htext. simpl. apply includes_iff.
      exists "", "". rewrite append_empty_r. reflexivity.
    + exists (<["f" := VNum (Fin 1)]> ∅), "f", (VNum (Fin 0)).
      rewrite evalCondition_op, Hnum. reflexivity.
    + exists (<["f" := VNum (Fin 1)]> ∅), "f", (VNum (Fin 2)).
      rewrite evalCondition_op, Hnum. reflexivity.
    + exists (<["f" := VNum (Fin 1)]> ∅), "f", (VNum (Fin 0)).
      rewrite evalCondition_op, Hnum. reflexivity.
    + exists (<["f" := VNum (Fin 1)]> ∅), "f", (VNum (Fin 2)).
      rewrite evalCondition_op, Hnum. reflexivity.
    + exists (<["f" := VStr "a"]> ∅), "f", (VStr "a").
      rewrite evalCondition_op, Htext. simpl. apply startsWith_iff.
      exists "". rewrite append_empty_r. reflexivity.
    + exists (<["f" := VStr "a"]> ∅), "f", (VStr "a").
      rewrite evalCondition_op, Htext. simpl. apply endsWith_iff.
      exists "". reflexivity.
    + apply elem_of_nil in Hop. contradiction.
Qed.

Lemma keepRecord_every_some (fs : list Filter) (r : record) :
  fs ≠ [] → keepRecord fs "AND" r = true → keepRecord fs "OR" r = true.
Proof.
  intros Hfs. unfold keepRecord. simpl.
  destruct fs as [|c fs]; [congruence|]. simpl.
  intros Hall. apply andb_true_iff in Hall. destruct Hall as [-> _]. reflexivity.
Qed.

(** X6. For one filter set, the records kept under AND are among the
    records kept under OR, in the same order.  This holds for the empty
    set too, where both return the input. *)
Theorem applyFilters_AND_in_OR (data : list record) (fs : list Filter) :
  applyFilters data (Some fs) "AND" `sublist_of` applyFilters data (Some fs) "OR".
Proof.
  destruct fs as [|c fs]; [reflexivity|].
  rewrite !applyFilters_cons. apply List_filter_sublist_mono.
  intros r. apply keepRecord_every_some. discriminate.
Qed.

Lemma keepRecord_every_app (fs1 fs2 : list Filter) (r : record) :
  keepRecord (fs1 ++ fs2)%list "AND" r = keepRecord fs1 "AND" r && keepRecord fs2 "AND" r.
Proof. unfold keepRecord. simpl. rewrite map_app. apply forallb_app. Qed.

Lemma keepRecord_some_app (fs1 fs2 : list Filter) (r : record) :
  keepRecord (fs1 ++ fs2)%list "OR" r = keepRecord fs1 "OR" r || keepRecord fs2 "OR" r.
Proof. unfold keepRecord. simpl. rewrite map_app. apply existsb_app. Qed.

Lemma applyFilters_filter (data : list record) (fs : list Filter) :
  applyFilters data (Some fs) "AND" = List.filter (keepRecord fs "AND") data.
Proof.
  destruct fs as [|c fs]; [|reflexivity].
  simpl. symmetry. apply List_filter_all. reflexivity.
Qed.

(** X7. Under AND, filtering by one set and then filtering the result by
    a second set is filtering once by the two sets together; narrowing a
    result never needs the original records again. *)
Theorem applyFilters_AND_sequential (data : list record) (fs1 fs2 : list Filter) :
  applyFilters (applyFilters data (Some fs1) "AND") (Some fs2) "AND"
  = applyFilters data (Some (fs1 ++ fs2)%list) "AND".
Proof.
  rewrite !applyFilters_filter, List_filter_filter.
  apply filter_ext. intros r. symmetry. apply keepRecord_every_app.
Qed.

(** X8. Under OR, with two filter sets that are not empty, the records
    kept by the two sets together are the records kept by the first set or
    by the second. *)
Theorem applyFilters_OR_union (data : list record) (fs1 fs2 : list Filter)
    (r : record) :
  fs1 ≠ [] → fs2 ≠ [] →
  (r ∈ applyFilters data (Some (fs1 ++ fs2)%list) "OR"
   ↔ r ∈ applyFilters data (Some fs1) "OR" ∨ r ∈ applyFilters data (Some fs2) "OR").
Proof.
  intros H1 H2.
  rewrite !applyFilters_nonempty by (try assumption; destruct fs1; simpl; congruence).
  rewrite !list_elem_of_In, !filter_In, keepRecord_some_app, orb_true_iff. tauto.
Qed.

(** X9. Records are judged one by one: filtering a concatenation is
    concatenating the filtered parts, and filtering a filtered sequence
    again with the same set changes nothing. *)
Theorem applyFilters_app (data1 data2 : list record) (filters : option (list Filter))
    (logic : string) :
  applyFilters (data1 ++ data2)%list filters logic
  = (applyFilters data1 filters logic ++ applyFilters data2 filters logic)%list
  ∧ applyFilters (applyFilters data1 filters logic) filters logic
    = applyFilters data1 filters logic.
Proof.
  destruct filters as [[|c fs]|]; try (split; reflexivity).
  rewrite !applyFilters_cons. split.
  - apply List.filter_app.
  - rewrite List_filter_filter. apply filter_ext. intros r. apply andb_diag.
Qed.

(** With a single condition the combinator does not matter. *)
Lemma applyFilters_single (data : list record) (c : Filter) (logic logic' : string) :
  applyFilters data (Some [c]) logic = applyFilters data (Some [c]) logic'.
Proof.
  rewrite !applyFilters_cons. apply filter_ext. intros r. unfold keepRecord.
  destruct (String.eqb logic "OR"), (String.eqb logic' "OR"); simpl;
    destruct (evalCondition r c); reflexivity.
Qed.
End CombinatorFacts.

(** ** The blank condition of the frontend *)

Section BlankCondition.
Context `{Engine}.

Lemma includes_empty_text (s : string) : includes s "" = true.
Proof. apply includes_iff. exists "", s. reflexivity. Qed.

(** X11. [addFilter] appends a condition that holds on every record with
    a first name, when lower-casing the empty text gives the empty text:
    under AND the blank row leaves the result as it was, under OR it makes
    every record pass. *)
Theorem addFilter_blank (data : list record) (fs : list Filter) :
  toLowerCase "" = "" →
  (∀ r, r ∈ data → absent (prop r "firstName") = false) →
  applyFilters data (Some (App.addFilter fs)) "AND" = applyFilters data (Some fs) "AND"
  ∧ applyFilters data (Some (App.addFilter fs)) "OR" = data.
Proof.
  intros Hlower Hpresent.
  assert (Hblank : ∀ r, r ∈ data →
            evalCondition r (mkFilter "firstName" "contains" (VStr "")) = true).
  { intros r Hr. rewrite evalCondition_op. simpl.
    rewrite (Hpresent r Hr), Hlower. simpl. apply includes_empty_text. }
  unfold App.addFilter. split.
  - rewrite !applyFilters_filter. apply filter_ext_in. intros r Hr.
    rewrite keepRecord_every_app. unfold keepRecord at 2. simpl.
    rewrite Hblank by (apply list_elem_of_In, Hr).
    rewrite andb_true_r. reflexivity.
  - rewrite applyFilters_nonempty by (destruct fs; discriminate).
    apply List_filter_all. intros r Hr.
    rewrite keepRecord_some_app. unfold keepRecord at 2. simpl.
    rewrite Hblank by exact Hr. apply orb_true_r.
Qed.
End BlankCondition.

(** ** Sorting by a numeric field *)

Lemma StronglySorted_rev {A : Type} (R : A → A → Prop) (l : list A) :
  StronglySorted R l → StronglySorted (λ a b, R b a) (rev l).
Proof.
  induction 1 as [|x l Hl IH Hx]; simpl; [constructor|].
  apply StronglySorted_app. split; [|split].
  - intros x1 x2 Hx1 Hx2. apply list_elem_of_singleton in Hx2. subst x2.
    rewrite Forall_forall in Hx. apply Hx.
    apply list_elem_of_In, in_rev, list_elem_of_In, Hx1.
  - exact IH.
  - repeat constructor.
Qed.

Lemma StronglySorted_mono {A : Type} (R R' : A → A → Prop) (l : list A) :
  (∀ a b, R a b → R' a b) → StronglySorted R l → StronglySorted R' l.
Proof.
  intros HR. induction 1 as [|x l Hl IH Hx]; constructor; [exact IH|].
  eapply Forall_impl; [exact Hx|]. intros y. apply HR.
Qed.

Section KeySort.
Context {A : Type} (comparefn : A → A → number) (key : A → Q) (P : A → Prop).
Hypothesis comparefn_key :
  ∀ a b, P a → P b → (sortsAfter comparefn a b = true ↔ (key b < key a)%Q).

Lemma insertSorted_by_key (x : A) (l : list A) :
  P x → Forall P l →
  StronglySorted (λ a b, (key a <= key b)%Q) l →
  StronglySorted (λ a b, (key a <= key b)%Q) (insertSorted comparefn x l).
Proof.
  intros Px. induction l as [|y l IH]; intros Pl Hs; simpl.
  - repeat constructor.
  - apply Forall_cons in Pl. destruct Pl as [Py Pl].
    apply StronglySorted_inv in Hs. destruct Hs as [Hl Hy].
    destruct (sortsAfter comparefn x y) eqn:Hxy.
    + apply (comparefn_key x y Px Py) in Hxy.
      constructor; [apply IH; assumption|].
      rewrite insertSorted_Permutation. constructor; [lra | exact Hy].
    + assert (Hle : (key x <= key y)%Q).
      { destruct (Qlt_le_dec (key y) (key x)) as [Hlt | Hle]; [|exact Hle].
        apply (comparefn_key x y Px Py) in Hlt. congruence. }
      constructor; [constructor; assumption|].
      constructor; [exact Hle|].
      eapply Forall_impl; [exact Hy|]. intros z Hyz. simpl in Hyz. lra.
Qed.

Lemma sortArray_by_key (l : list A) :
  Forall P l →
  StronglySorted (λ a b, (key a <= key b)%Q) (sortArray comparefn l).
Proof.
  induction l as [|x l IH]; intros Pl; simpl; [constructor|].
  apply Forall_cons in Pl. destruct Pl as [Px Pl].
  apply insertSorted_by_key; [exact Px | | apply IH, Pl].
  rewrite sortArray_Permutation. exact Pl.
Qed.
End KeySort.

Section NumericSort.
Context `{Engine} `{ArraySort} `{!ArraySortContract}.

Lemma compareRecords_numbers (f sortOrder : string) (a b : record) (qa qb : Q) :
  prop a f = VNum (Fin qa) → prop b f = VNum (Fin qb) →
  compareRecords f sortOrder a b =
  if String.eqb sortOrder "desc" then Fin (- (qa - qb)) else Fin (qa - qb).
Proof. intros Ha Hb. unfold compareRecords. rewrite Ha, Hb. reflexivity. Qed.

Lemma keyOf_number (f : string) (r : record) (q : Q) :
  prop r f = VNum (Fin q) → keyOf f r = q.
Proof. intros Hq. unfold keyOf. rewrite Hq. reflexivity. Qed.

Lemma sortsAfter_ascending (f sortOrder : string) (a b : record) :
  sortOrder ≠ "desc" →
  (∃ q, prop a f = VNum (Fin q)) → (∃ q, prop b f = VNum (Fin q)) →
  (sortsAfter (compareRecords f sortOrder) a b = true ↔ (keyOf f b < keyOf f a)%Q).
Proof.
  intros Hasc [qa Ha] [qb Hb]. unfold sortsAfter.
  rewrite (compareRecords_numbers f sortOrder a b qa qb Ha Hb).
  apply String.eqb_neq in Hasc. rewrite Hasc.
  rewrite num_lt_Fin, (keyOf_number f a qa Ha), (keyOf_number f b qb Hb).
  split; intros; lra.
Qed.

Lemma sortsAfter_descending (f : string) (a b : record) :
  (∃ q, prop a f = VNum (Fin q)) → (∃ q, prop b f = VNum (Fin q)) →
  (sortsAfter (compareRecords f "desc") a b = true
   ↔ (- keyOf f b < - keyOf f a)%Q).
Proof.
  intros [qa Ha] [qb Hb]. unfold sortsAfter.
  rewrite (compareRecords_numbers f "desc" a b qa qb Ha Hb). simpl String.eqb.
  cbv iota. rewrite num_lt_Fin, (keyOf_number f a qa Ha), (keyOf_number f b qb Hb).
  split; intros; lra.
Qed.

Lemma applySort_field (data : list record) (f sortOrder : string) :
  f ≠ "" → numericField f data →
  applySort data (Some f) sortOrder = sortArray (compareRecords f sortOrder) data.
Proof.
  intros Hf Hnum. unfold applySort. apply String.eqb_neq in Hf. rewrite Hf.
  apply arraySort_consistent, numericField_consistent, Hnum.
Qed.

Lemma numericField_Forall (f : string) (data : list record) :
  numericField f data → Forall (λ r, ∃ q, prop r f = VNum (Fin q)) data.
Proof. intros Hnum. apply Forall_forall. exact Hnum. Qed.

Lemma applySort_descending_sorted (data : list record) (f : string) :
  f ≠ "" → numericField f data →
  StronglySorted (λ a b, (keyOf f b <= keyOf f a)%Q) (applySort data (Some f) "desc").
Proof.
  intros Hf Hnum. rewrite applySort_field by assumption.
  pose proof (sortArray_by_key (compareRecords f "desc") (λ r, - keyOf f r)%Q
                (λ r, ∃ q, prop r f = VNum (Fin q))
                (sortsAfter_descending f) data (numericField_Forall f data Hnum)) as Hs.
  revert Hs. apply StronglySorted_mono. intros a b Hab. simpl in Hab. lra.
Qed.

Lemma applySort_ascending_sorted (data : list record) (f sortOrder : string) :
  f ≠ "" → sortOrder ≠ "desc" → numericField f data →
  StronglySorted (λ a b, (keyOf f a <= keyOf f b)%Q) (applySort data (Some f) sortOrder).
Proof.
  intros Hf Hasc Hnum. rewrite applySort_field by assumption.
  exact (sortArray_by_key (compareRecords f sortOrder) (keyOf f)
           (λ r, ∃ q, prop r f = VNum (Fin q))
           (λ a b, sortsAfter_ascending f sortOrder a b Hasc) data
           (numericField_Forall f data Hnum)).
Qed.

(** X12. When every record holds a number at the sort field, the output
    is ordered by that number: never decreasing in ascending order (which
    is every sort order but [desc]), never increasing in descending
    order. *)
Theorem applySort_numeric_sorted (data : list record) (f : string) :
  f ≠ "" → numericField f data →
  (∀ sortOrder, sortOrder ≠ "desc" →
     StronglySorted (λ a b, (keyOf f a <= keyOf f b)%Q)
       (applySort data (Some f) sortOrder))
  ∧ StronglySorted (λ a b, (keyOf f b <= keyOf f a)%Q)
      (applySort data (Some f) "desc").
Proof.
  intros Hf Hnum. split.
  - intros sortOrder Hasc. apply applySort_ascending_sorted; assumption.
  - apply applySort_descending_sorted; assumption.
Qed.

(** X13. When every record holds a number at the sort field and no two
    different records hold equal numbers, sorting in descending order is
    reversing the ascending sort. *)
Theorem applySort_desc_rev_asc (data : list record) (f : string) :
  f ≠ "" → numericField f data → distinctKeys f data →
  applySort data (Some f) "desc" = rev (applySort data (Some f) "asc").
Proof.
  intros Hf Hnum Hdist.
  apply (StronglySorted_unique_strong (λ a b, (keyOf f b <= keyOf f a)%Q)).
  - intros a b Ha Hb Hab Hba. apply Hdist.
    + rewrite applySort_Permutation in Ha. exact Ha.
    + rewrite <- Permutation_rev, applySort_Permutation in Hb. exact Hb.
    + lra.
  - apply applySort_descending_sorted; assumption.
  - apply (StronglySorted_rev (λ a b, (keyOf f a <= keyOf f b)%Q)).
    apply applySort_ascending_sorted; [assumption | discriminate | assumption].
  - rewrite <- Permutation_rev, !applySort_Permutation. reflexivity.
Qed.

(** X14. Sorting rearranges and nothing else: for every sort field and
    sort order the output is a permutation of the input, with the same
    records as often as in the input. *)
Theorem applySort_permutes (data : list record) (sortField : option string)
    (sortOrder : string) :
  applySort data sortField sortOrder ≡ₚ data
  ∧ (∀ r, r ∈ applySort data sortField sortOrder ↔ r ∈ data)
  ∧ length (applySort data sortField sortOrder) = length data.
Proof.
  pose proof (applySort_Permutation data sortField sortOrder) as Hp.
  split; [exact Hp | split].
  - intros r. rewrite Hp. reflexivity.
  - apply Permutation_length, Hp.
Qed.
End NumericSort.

(** ** More on pages *)

(** [slice] is [take] after [drop], for all indices. *)
Lemma slice_take_drop {A : Type} (l : list A) (start end_ : Z) :
  ∃ k n, slice l start end_ = take n (drop k l).
Proof. unfold slice. eexists _, _. reflexivity. Qed.

Lemma paginate_data_segment {A : Type} (rows : list A) (page limit : Z) :
  ∃ before after,
    rows = (before ++ data (paginate rows page limit) ++ after)%list.
Proof.
  unfold paginate. simpl.
  destruct (slice_take_drop rows (page * limit) (page * limit + limit))
    as (k & n & ->).
  exists (take k rows), (drop n (drop k rows)).
  rewrite take_drop, take_drop. reflexivity.
Qed.

(** X15. Whatever the page index and the page size, negative ones
    included, the rows of a page are consecutive rows of the sequence: the
    sequence is some rows, then the page, then some rows. *)
Theorem paginate_segment {A : Type} (rows : list A) (page limit : Z) :
  ∃ before after,
    rows = (before ++ data (paginate rows page limit) ++ after)%list.
Proof. apply paginate_data_segment. Qed.

Lemma paginate_length {A : Type} (rows : list A) (page limit : Z) :
  0 ≤ page → 0 < limit →
  Z.of_nat (length (data (paginate rows page limit)))
  = Z.min limit (Z.max 0 (Z.of_nat (length rows) - page * limit)).
Proof.
  intros Hp Hl. rewrite paginate_data by assumption.
  rewrite length_take, length_drop. nia.
Qed.

(** X16. For a page index that is not negative and a positive page size,
    a page has as many rows as the page size or as are left from its
    offset, whichever is less; a page with [hasMore] is full, and a page is
    empty exactly when its offset is at or beyond the end. *)
Theorem paginate_page_size {A : Type} (rows : list A) (page limit : Z) :
  0 ≤ page → 0 < limit →
  Z.of_nat (length (data (paginate rows page limit)))
  = Z.min limit (Z.max 0 (Z.of_nat (length rows) - page * limit))
  ∧ (hasMore (paginate rows page limit) = true →
     Z.of_nat (length (data (paginate rows page limit))) = limit)
  ∧ (data (paginate rows page limit) = [] ↔ Z.of_nat (length rows) ≤ page * limit).
Proof.
  intros Hp Hl. pose proof (paginate_length rows page limit Hp Hl) as Hlen.
  split; [exact Hlen | split].
  - intros Hmore. apply paginate_hasMore in Hmore. lia.
  - rewrite <- length_zero_iff_nil. lia.
Qed.

(** X17. For a page index that is not negative and a positive page size,
    row [i] of page [page] is row [page * limit + i] of the sequence, for
    [i] below the page size, and the page has no row at [i] from the page
    size on. *)
Theorem paginate_lookup {A : Type} (rows : list A) (page limit : Z) (i : nat) :
  0 ≤ page → 0 < limit →
  data (paginate rows page limit) !! i
  = if (Z.of_nat i <? limit) then rows !! (Z.to_nat (page * limit) + i)%nat
    else None.
Proof.
  intros Hp Hl. rewrite paginate_data by assumption.
  destruct (Z.ltb_spec (Z.of_nat i) limit) as [Hi | Hi].
  - rewrite lookup_take_lt by lia. apply lookup_drop.
  - apply lookup_take_ge. lia.
Qed.

Section PipelineFacts.
Context `{Engine} `{ArraySort} `{!ArraySortContract}.

(** X19. Every record in a response of the handler is a stored employee
    and, when the filter set is not empty, a record that the combined
    predicate keeps; this holds for every page index, page size, sort
    field and sort order. *)
Theorem getRecords_sound (employees : list record) (page limit : Z)
    (sortField : option string) (sortOrder : string) (fs : list Filter)
    (logic : string) (r : record) :
  r ∈ data (getRecords employees page limit sortField sortOrder (Some fs) logic) →
  r ∈ employees ∧ (fs ≠ [] → keepRecord fs logic r = true).
Proof.
  unfold getRecords. intros Hr.
  destruct (paginate_data_segment
              (applySort (applyFilters employees (Some fs) logic) sortField sortOrder)
              page limit) as (before & after & Hrows).
  assert (Hsorted : r ∈ applySort (applyFilters employees (Some fs) logic)
                          sortField sortOrder).
  { rewrite Hrows. apply elem_of_app. right. apply elem_of_app. left. exact Hr. }
  rewrite applySort_Permutation in Hsorted. split.
  - eapply sublist_subseteq; [|exact Hsorted].
    destruct fs as [|c fs]; [reflexivity|].
    rewrite applyFilters_cons. apply List_filter_sublist.
  - intros Hfs. rewrite applyFilters_nonempty in Hsorted by exact Hfs.
    apply list_elem_of_In, filter_In in Hsorted. apply Hsorted.
Qed.

Lemma queryInt_default_nonzero (parseInt : string → option Z)
    (query : gmap string string) (key : string) (d : Z) :
  d ≠ 0 → queryInt parseInt query key d ≠ 0.
Proof.
  intros Hd. unfold queryInt, numberOr.
  destruct (match query !! key with Some s => parseInt s | None => None end)
    as [z|]; [|exact Hd].
  destruct (Z.eqb_spec z 0); assumption.
Qed.

(** X20. The handler never pages with size 0, since a limit of 0 is
    replaced by 50.  So when the page and the limit of the query are not
    negative, a response with [hasMore] carries at least one record: a
    client that reads page after page makes progress with every request. *)
Theorem handleGetRecords_progress (parseInt : string → option Z)
    (employees : list record) (query : gmap string string) (filters : list Filter) :
  0 ≤ queryInt parseInt query "page" 0 →
  0 ≤ queryInt parseInt query "limit" 50 →
  hasMore (handleGetRecords parseInt employees query filters) = true →
  data (handleGetRecords parseInt employees query filters) ≠ [].
Proof.
  intros Hp Hl. unfold handleGetRecords, getRecords. cbv zeta.
  pose proof (queryInt_default_nonzero parseInt query "limit" 50) as Hnz.
  assert (Hpos : 0 < queryInt parseInt query "limit" 50) by lia.
  generalize dependent (queryInt parseInt query "limit" 50).
  generalize dependent (queryInt parseInt query "page" 0).
  intros page Hp limit _ _ Hpos Hmore Hnil.
  apply paginate_hasMore in Hmore.
  apply (f_equal (λ l, Z.of_nat (length l))) in Hnil.
  rewrite paginate_length in Hnil by assumption.
  change (Z.of_nat (length [])) with 0 in Hnil. lia.
Qed.

(** X21. A request without parameters gets the first 50 employees in
    stored order, the number of all employees, and [hasMore] exactly when
    there are more than 50. *)
Theorem handleGetRecords_defaults (parseInt : string → option Z)
    (employees : list record) :
  handleGetRecords parseInt employees ∅ []
  = mkApiResponse (take 50 employees) (Z.of_nat (length employees))
      (50 <? Z.of_nat (length employees)).
Proof.
  unfold handleGetRecords, queryInt. rewrite !lookup_empty.
  transitivity (paginate employees 0 50); [reflexivity|].
  unfold paginate. f_equal.
  apply (slice_window employees 0 50); lia.
Qed.
End PipelineFacts.

(** ** The preset store *)

Lemma Math_max_ge (l : list Z) :
  ∀ x, x ≤ Math_max x l ∧ ∀ y, y ∈ l → y ≤ Math_max x l.
Proof.
  unfold Math_max. induction l as [|z l IH]; intros x; simpl.
  - split; [lia | intros y Hy; apply elem_of_nil in Hy; contradiction].
  - destruct (IH (Z.max x z)) as [Hx Hl]. split; [lia|].
    intros y Hy. apply elem_of_cons in Hy. destruct Hy as [-> | Hy]; [lia|].
    apply Hl, Hy.
Qed.

Lemma Math_max_elem (l : list Z) : ∀ x, Math_max x l ∈ x :: l.
Proof.
  unfold Math_max. induction l as [|z l IH]; intros x; simpl; [left|].
  specialize (IH (Z.max x z)). apply elem_of_cons in IH.
  destruct IH as [-> | IH]; [|right; right; exact IH].
  destruct (Z.max_spec x z) as [[_ ->] | [_ ->]]; [right; left | left].
Qed.

(** Integers up to 2^53 in absolute value are doubles. *)
Lemma roundToDouble_exact (n : Z) : Z.abs n ≤ 2 ^ 53 → roundToDouble n = n.
Proof.
  intros Hn. unfold roundToDouble.
  destruct (Z.ltb_spec (Z.abs n) (2 ^ 53)) as [_ | Hge]; [reflexivity|].
  assert (Hcase : n = 2 ^ 53 ∨ n = - 2 ^ 53) by lia.
  destruct Hcase as [-> | ->]; vm_compute; reflexivity.
Qed.

Lemma nextId_above (ps : list Preset.t) (p : Preset.t) :
  safeIds ps → p ∈ ps → Preset.id p < nextId ps.
Proof.
  intros Hsafe Hp. unfold nextId.
  assert (Hid : Preset.id p ∈ map Preset.id ps).
  { apply list_elem_of_In, in_map, list_elem_of_In, Hp. }
  assert (Hall : ∀ z, z ∈ map Preset.id ps → Z.abs z < 2 ^ 53).
  { intros z Hz. apply list_elem_of_In, in_map_iff in Hz.
    destruct Hz as (q & <- & Hq). apply Hsafe, list_elem_of_In, Hq. }
  destruct (map Preset.id ps) as [|x l].
  - apply elem_of_nil in Hid. contradiction.
  - pose proof (Hall _ (Math_max_elem l x)) as Hmax.
    rewrite roundToDouble_exact by lia.
    destruct (Math_max_ge l x) as [Hx Hl].
    apply elem_of_cons in Hid. destruct Hid as [-> | Hid]; [lia|].
    specialize (Hl _ Hid). lia.
Qed.

Lemma hasId_true (id : option Z) (p : Preset.t) :
  hasId id p = true ↔ id = Some (Preset.id p).
Proof.
  unfold hasId. destruct id as [z|]; [|split; discriminate].
  rewrite Z.eqb_eq. split; [intros ->; reflexivity | intros [= ->]; reflexivity].
Qed.

Lemma putPresetDefault_ids (d : Data) (id : option Z) :
  map Preset.id (presets (putPresetDefault d id)) = map Preset.id (presets d).
Proof. unfold putPresetDefault. simpl. rewrite map_map. reflexivity. Qed.

Lemma NoDup_map_filter {A B : Type} (f : A → B) (g : A → bool) (l : list A) :
  NoDup (map f l) → NoDup (map f (List.filter g l)).
Proof.
  induction l as [|x l IH]; simpl; intros Hnd; [exact Hnd|].
  apply NoDup_cons in Hnd. destruct Hnd as [Hx Hl].
  destruct (g x); simpl; [|apply IH, Hl].
  apply NoDup_cons. split; [|apply IH, Hl].
  intros Hin. apply Hx.
  apply list_elem_of_In, in_map_iff in Hin. destruct Hin as (y & Hy & Hin).
  apply filter_In in Hin. apply list_elem_of_In, in_map_iff.
  exists y. tauto.
Qed.

Lemma NoDup_map_inj_elem {A B : Type} (f : A → B) (l : list A) (x y : A) :
  NoDup (map f l) → x ∈ l → y ∈ l → f x = f y → x = y.
Proof.
  induction l as [|z l IH]; simpl; intros Hnd Hx Hy Hf.
  - apply elem_of_nil in Hx. contradiction.
  - apply NoDup_cons in Hnd. destruct Hnd as [Hz Hl].
    apply elem_of_cons in Hx. apply elem_of_cons in Hy.
    destruct Hx as [-> | Hx], Hy as [-> | Hy].
    + reflexivity.
    + exfalso. apply Hz. rewrite Hf.
      apply list_elem_of_In, in_map, list_elem_of_In, Hy.
    + exfalso. apply Hz. rewrite <- Hf.
      apply list_elem_of_In, in_map, list_elem_of_In, Hx.
    + apply IH; assumption.
Qed.

(** X22. When the stored ids are safe integers, POST gives the new
    preset an id above every id in the store, and the id 1 in an empty
    store; the preset is stored last, behind the presets that were there,
    and is the response.  (From 2^53 on, adding 1 to the largest id may
    round back to it: see [nextId_rounds].) *)
Theorem postPreset_fresh_id (d : Data) (newPreset : Preset.t) :
  safeIds (presets d) →
  (∀ p, p ∈ presets d → Preset.id p < Preset.id (snd (postPreset d newPreset)))
  ∧ (presets d = [] → Preset.id (snd (postPreset d newPreset)) = 1)
  ∧ presets (fst (postPreset d newPreset))
    = (presets d ++ [snd (postPreset d newPreset)])%list.
Proof.
  intros Hsafe. split; [|split].
  - intros p Hp. simpl. apply nextId_above; assumption.
  - intros Hempty. simpl. rewrite Hempty. reflexivity.
  - reflexivity.
Qed.

(** X23. The three handlers that write the store keep the ids of the
    presets pairwise different, POST when the stored ids are safe
    integers. *)
Theorem preset_ids_stay_unique (d : Data) (newPreset : Preset.t) (id : option Z) :
  NoDup (map Preset.id (presets d)) →
  (safeIds (presets d) →
   NoDup (map Preset.id (presets (fst (postPreset d newPreset)))))
  ∧ NoDup (map Preset.id (presets (putPresetDefault d id)))
  ∧ NoDup (map Preset.id (presets (deletePreset d id))).
Proof.
  intros Hnd. split; [|split].
  - intros Hsafe. simpl. rewrite map_app. simpl. apply NoDup_app. split; [exact Hnd|].
    split; [|apply NoDup_singleton].
    intros z Hz Hnew. apply list_elem_of_singleton in Hnew. subst z.
    apply list_elem_of_In, in_map_iff in Hz. destruct Hz as (p & Hid & Hp).
    apply list_elem_of_In, (nextId_above _ _ Hsafe) in Hp. lia.
  - rewrite putPresetDefault_ids. exact Hnd.
  - simpl. apply NoDup_map_filter, Hnd.
Qed.

Lemma putPresetDefault_isDefault (d : Data) (id : option Z) (p : Preset.t) :
  p ∈ presets (putPresetDefault d id) →
  (Preset.isDefault p = true ↔ id = Some (Preset.id p)).
Proof.
  intros Hp. simpl in Hp. apply list_elem_of_In, in_map_iff in Hp.
  destruct Hp as (p0 & <- & _). simpl. apply hasId_true.
Qed.

(** X24. After PUT default, a preset of the store is the default exactly
    when its id is the id of the request; ids, names, filters, logic and
    order of the presets are as before.  So a request with an id that no
    preset has, or that is not a number, leaves the store without a
    default. *)
Theorem putPresetDefault_marks (d : Data) (id : option Z) :
  (∀ p, p ∈ presets (putPresetDefault d id) →
     (Preset.isDefault p = true ↔ id = Some (Preset.id p)))
  ∧ map (λ p, (Preset.id p, Preset.name p, Preset.filters p, Preset.logic p))
      (presets (putPresetDefault d id))
    = map (λ p, (Preset.id p, Preset.name p, Preset.filters p, Preset.logic p))
        (presets d)
  ∧ ((∀ p, p ∈ presets d → id ≠ Some (Preset.id p)) →
     ∀ p, p ∈ presets (putPresetDefault d id) → Preset.isDefault p = false).
Proof.
  split; [apply putPresetDefault_isDefault | split].
  - simpl. rewrite map_map. reflexivity.
  - intros Hnone p Hp. destruct (Preset.isDefault p) eqn:Hdef; [|reflexivity].
    exfalso. apply (putPresetDefault_isDefault d id p Hp) in Hdef.
    simpl in Hp. apply list_elem_of_In, in_map_iff in Hp.
    destruct Hp as (p0 & <- & Hp0). simpl in Hdef.
    apply (Hnone p0); [apply list_elem_of_In, Hp0 | exact Hdef].
Qed.

(** X25. When the ids of the stored presets are pairwise different, the
    store has at most one default after PUT default, and the frontend, which
    applies the first default it finds on mount, finds the preset with
    the id of the request if the store has one. *)
Theorem putPresetDefault_single (d : Data) (z : Z) :
  NoDup (map Preset.id (presets d)) →
  (∀ p q, p ∈ presets (putPresetDefault d (Some z)) →
          q ∈ presets (putPresetDefault d (Some z)) →
          Preset.isDefault p = true → Preset.isDefault q = true → p = q)
  ∧ (z ∈ map Preset.id (presets d) →
     ∃ p, App.findDefault (presets (putPresetDefault d (Some z))) = Some p
          ∧ Preset.id p = z).
Proof.
  intros Hnd. split.
  - intros p q Hp Hq Hdp Hdq.
    apply (putPresetDefault_isDefault d (Some z) p Hp) in Hdp.
    apply (putPresetDefault_isDefault d (Some z) q Hq) in Hdq.
    apply (NoDup_map_inj_elem Preset.id (presets (putPresetDefault d (Some z))));
      [rewrite putPresetDefault_ids; exact Hnd | assumption | assumption | congruence].
  - intros Hz. unfold App.findDefault. simpl. clear Hnd.
    induction (presets d) as [|p ps IH]; simpl in *.
    + apply elem_of_nil in Hz. contradiction.
    + destruct (Z.eqb_spec (Preset.id p) z) as [Heq | Hne].
      * eexists. split; [reflexivity | exact Heq].
      * apply IH. apply elem_of_cons in Hz. destruct Hz as [-> | Hz];
          [congruence | exact Hz].
Qed.

(** X26. DELETE removes exactly the presets with the id of the request
    and keeps the others in their order; with an id that no preset has, or
    that is not a number, the store stays as it is. *)
Theorem deletePreset_removes (d : Data) (id : option Z) :
  (∀ p, p ∈ presets (deletePreset d id) ↔ p ∈ presets d ∧ id ≠ Some (Preset.id p))
  ∧ presets (deletePreset d id) `sublist_of` presets d
  ∧ ((∀ p, p ∈ presets d → id ≠ Some (Preset.id p)) → deletePreset d id = d).
Proof.
  split; [|split].
  - intros p. simpl. rewrite !list_elem_of_In, filter_In, negb_true_iff.
    rewrite <- not_true_iff_false, hasId_true. reflexivity.
  - apply List_filter_sublist.
  - intros Hnone. destruct d as [es ps]. unfold deletePreset. simpl in *. f_equal.
    apply List_filter_all. intros p Hp. apply negb_true_iff.
    apply not_true_iff_false. rewrite hasId_true. apply Hnone, Hp.
Qed.

(** X27. When the stored ids are safe integers, deleting the preset
    that a POST has just created restores the store. *)
Theorem deletePreset_postPreset (d : Data) (newPreset : Preset.t) :
  safeIds (presets d) →
  deletePreset (fst (postPreset d newPreset))
    (Some (Preset.id (snd (postPreset d newPreset)))) = d.
Proof.
  intros Hsafe.
  destruct d as [es ps]. unfold deletePreset. simpl in *. f_equal.
  rewrite List.filter_app. simpl. rewrite Z.eqb_refl. simpl.
  rewrite app_nil_r. apply List_filter_all.
  intros p Hp. apply negb_true_iff, Z.eqb_neq.
  apply (nextId_above _ _ Hsafe) in Hp. lia.
Qed.

(** Beyond the safe integers the sum is rounded: above the id 2^53 the
    next id is 2^53 again, and deleting the new preset by its id deletes
    the old one with it. *)
Example nextId_rounds :
  nextId [Preset.mk (2 ^ 53) "first" [] "AND" false] = 2 ^ 53
  ∧ presets (deletePreset
      (fst (postPreset (mkData [] [Preset.mk (2 ^ 53) "first" [] "AND" false])
              (Preset.mk 0 "second" [] "AND" false)))
      (Some (2 ^ 53))) = [].
Proof. split; vm_compute; reflexivity. Qed.

(** ** The state of the frontend *)

(** X28. Clicks on column headers keep the sort state valid: a column is
    selected exactly when an order is, and the order is [asc] or [desc].
    A click on another column selects it in ascending order, and three
    clicks on one column lead from no sort through ascending and
    descending back to no sort. *)
Theorem handleSort_cycle (st : App.SortState) (field : string) :
  App.validSort st →
  App.validSort (App.handleSort st field)
  ∧ (App.sortField st ≠ Some field →
     App.handleSort st field = App.mkSortState (Some field) (Some "asc"))
  ∧ (App.sortField st = None →
     App.handleSort (App.handleSort st field) field
     = App.mkSortState (Some field) (Some "desc")
     ∧ App.handleSort (App.handleSort (App.handleSort st field) field) field = st).
Proof.
  intros Hvalid.
  assert (Hother : App.sortField st ≠ Some field →
            App.handleSort st field = App.mkSortState (Some field) (Some "asc")).
  { intros Hne. unfold App.handleSort.
    destruct (decide (App.sortField st = Some field)); [contradiction | reflexivity]. }
  split; [|split; [exact Hother|]].
  - destruct st as [[f|] [o|]]; simpl in Hvalid; try contradiction.
    + unfold App.handleSort, App.validSort. simpl.
      destruct Hvalid as [-> | ->];
        repeat (destruct (decide _) as [?|?]; simpl);
        try congruence; try exact I; auto.
    + left. reflexivity.
  - intros Hnone. destruct st as [f o]. simpl in Hnone. subst f.
    destruct o as [o|]; simpl in Hvalid; [contradiction|].
    unfold App.handleSort. simpl.
    repeat (destruct (decide _) as [?|?]; simpl); try congruence.
    split; reflexivity.
Qed.

Lemma filterIndex_keep {A : Type} (index : nat) (l : list A) :
  ∀ i, (index < i)%nat →
       App.filterIndex (λ j, negb (j =? index)%nat) i l = l.
Proof.
  induction l as [|x l IH]; intros i Hi; simpl; [reflexivity|].
  destruct (Nat.eqb_spec i index); [lia|]. simpl. rewrite IH by lia. reflexivity.
Qed.

Lemma filterIndex_from {A : Type} (l : list A) :
  ∀ index i,
    App.filterIndex (λ j, negb (j =? i + index)%nat) i l
    = (take index l ++ drop (S index) l)%list.
Proof.
  induction l as [|x l IH]; intros index i; simpl.
  - rewrite take_nil. reflexivity.
  - destruct index as [|index].
    + rewrite Nat.add_0_r, Nat.eqb_refl. simpl. apply filterIndex_keep. lia.
    + destruct (Nat.eqb_spec i (i + S index)); [lia|]. simpl. f_equal.
      replace (i + S index)%nat with (S i + index)%nat by lia. apply IH.
Qed.

(** X29. [removeFilter] removes the row at the index and keeps the other
    rows in order; an index that no row has removes nothing, and removing
    the row that [addFilter] has just added restores the rows. *)
Theorem removeFilter_row (filters : list Filter) (index : nat) :
  App.removeFilter filters index
  = (take index filters ++ drop (S index) filters)%list
  ∧ ((length filters ≤ index)%nat → App.removeFilter filters index = filters)
  ∧ App.removeFilter (App.addFilter filters) (length filters) = filters.
Proof.
  assert (Hrow : ∀ (fs : list Filter) i,
            App.removeFilter fs i = (take i fs ++ drop (S i) fs)%list).
  { intros fs i. unfold App.removeFilter. apply (filterIndex_from fs i 0%nat). }
  split; [apply Hrow | split].
  - intros Hout. rewrite Hrow, take_ge, drop_ge by lia. apply app_nil_r.
  - rewrite Hrow. unfold App.addFilter.
    rewrite take_app_length, drop_ge by (rewrite length_app; simpl; lia).
    apply app_nil_r.
Qed.


(** ** From the frontend's request to the response *)

Lemma lookup_appendIf_ne (key key' : string) (v : option string)
    (params : gmap string string) :
  key ≠ key' → appendIf key v params !! key' = params !! key'.
Proof.
  intros Hne. unfold appendIf. destruct v as [s|]; [|reflexivity].
  destruct (String.eqb s ""); [reflexivity|]. apply lookup_insert_ne, Hne.
Qed.

Lemma lookup_appendIf (key : string) (v : option string)
    (params : gmap string string) :
  params !! key = None →
  appendIf key v params !! key
  = match v with
    | Some s => if String.eqb s "" then None else Some s
    | None => None
    end.
Proof.
  intros Hnone. unfold appendIf. destruct v as [s|]; [|exact Hnone].
  destruct (String.eqb s ""); [exact Hnone|]. apply lookup_insert_eq.
Qed.

Lemma numberOr_Some (z d : Z) : z ≠ 0 ∨ d = 0 → numberOr (Some z) d = z.
Proof.
  intros Hz. unfold numberOr. destruct (Z.eqb_spec z 0); [lia | reflexivity].
Qed.

Section ClientFacts.
Context `{Engine} `{ArraySort} `{!ArraySortContract}.
Variable numberText : Z → string.
Variable parseInt : string → option Z.
Variable stringify : list Filter → string.
Variable parse : string → list Filter.

Lemma applySort_empty_field (rows : list record) (sortField : option string)
    (sortOrder : string) :
  applySort rows
    (match sortField with
     | Some s => if String.eqb s "" then None else Some s
     | None => None
     end) sortOrder
  = applySort rows sortField sortOrder.
Proof.
  destruct sortField as [s|]; [|reflexivity].
  destruct (String.eqb s "") eqn:Hs; [|reflexivity].
  simpl. rewrite Hs. reflexivity.
Qed.

Lemma textOr_sent (v : option string) (d : string) :
  textOr (match v with
          | Some s => if String.eqb s "" then None else Some s
          | None => None
          end) d
  = textOr v d.
Proof.
  destruct v as [s|]; [|reflexivity].
  destruct (String.eqb s "") eqn:Hs; simpl; rewrite ?Hs; reflexivity.
Qed.

Lemma fetchRecordsParams_lookup (page limit : Z) (sortField sortOrder : option string)
    (filters : option (list Filter)) (logic : option string) :
  let query := fetchRecordsParams numberText stringify page limit sortField
                 sortOrder filters logic in
  let sent (v : option string) :=
    match v with
    | Some s => if String.eqb s "" then None else Some s
    | None => None
    end in
  query !! "page" = Some (numberText page)
  ∧ query !! "limit" = Some (numberText limit)
  ∧ query !! "sortField" = sent sortField
  ∧ query !! "sortOrder" = sent sortOrder
  ∧ query !! "logic" = sent logic
  ∧ query !! "filters"
    = match filters with
      | Some (c :: fs) => Some (stringify (c :: fs))
      | _ => None
      end.
Proof.
  unfold fetchRecordsParams.
  repeat split; destruct filters as [[|c fs]|];
    repeat first
      [ rewrite lookup_appendIf_ne by discriminate
      | rewrite lookup_insert_ne by discriminate
      | rewrite lookup_insert_eq
      | rewrite lookup_appendIf
      | rewrite lookup_empty ];
    reflexivity.
Qed.

Lemma serveRecords_fetchRecordsParams (employees : list record) (page limit : Z)
    (sortField sortOrder : option string) (filters : list Filter)
    (logic : option string) :
  limit ≠ 0 →
  parseInt (numberText page) = Some page →
  parseInt (numberText limit) = Some limit →
  (filters ≠ [] → stringify filters ≠ "" ∧ parse (stringify filters) = filters) →
  serveRecords parseInt parse employees
    (fetchRecordsParams numberText stringify page limit sortField sortOrder
       (match filters with [] => None | _ => Some filters end) logic)
  = getRecords employees page limit sortField (textOr sortOrder "asc")
      (Some filters) (textOr logic "AND").
Proof.
  intros Hlimit Hpage Hlim Hjson.
  destruct (fetchRecordsParams_lookup page limit sortField sortOrder
              (match filters with [] => None | _ => Some filters end) logic)
    as (Hq1 & Hq2 & Hq3 & Hq4 & Hq5 & Hq6).
  unfold serveRecords, handleGetRecords, queryInt.
  rewrite Hq1, Hq2, Hq3, Hq4, Hq5, Hq6, Hpage, Hlim.
  rewrite !textOr_sent, !numberOr_Some by lia.
  assert (Hfilters :
    match
      match match filters with [] => None | _ => Some filters end with
      | Some (c :: fs) => Some (stringify (c :: fs))
      | _ => None
      end
    with
    | Some s => if String.eqb s "" then [] else parse s
    | None => []
    end = filters).
  { destruct filters as [|c fs]; [reflexivity|].
    destruct (Hjson ltac:(discriminate)) as [Hne Hrt].
    apply String.eqb_neq in Hne. rewrite Hne. exact Hrt. }
  rewrite Hfilters. unfold getRecords. rewrite applySort_empty_field. reflexivity.
Qed.

(** X10. The request that [fetchRecords] builds is decoded by the server
    to the parameters it was built from: when page and limit survive
    printing and [parseInt], the limit is not 0, and the conditions
    survive [JSON.stringify] and [JSON.parse], the response is the response
    of the engine for that page, limit, sort field and conditions, with the
    sort order [asc] and the combinator AND where the frontend sends
    none. *)
Theorem fetchRecords_round_trip (employees : list record) (page limit : Z)
    (sortField sortOrder : option string) (filters : list Filter)
    (logic : option string) :
  limit ≠ 0 →
  parseInt (numberText page) = Some page →
  parseInt (numberText limit) = Some limit →
  (filters ≠ [] → stringify filters ≠ "" ∧ parse (stringify filters) = filters) →
  serveRecords parseInt parse employees
    (fetchRecordsParams numberText stringify page limit sortField sortOrder
       (match filters with [] => None | _ => Some filters end) logic)
  = getRecords employees page limit sortField (textOr sortOrder "asc")
      (Some filters) (textOr logic "AND").
Proof. apply serveRecords_fetchRecordsParams. Qed.

Lemma afterScrolls_first_load (n : nat) (employees : list record)
    (sortField sortOrder : option string) (filters : list Filter) (logic : string) :
  afterScrolls numberText parseInt stringify parse n employees sortField sortOrder
    filters logic
  = loadData numberText parseInt stringify parse employees sortField sortOrder
      filters logic Table.initial 0 true.
Proof.
  unfold afterScrolls. induction n as [|n IH]; [reflexivity|].
  simpl. rewrite IH. reflexivity.
Qed.

(** X18. The table shows the first page, and scrolling loads no other:
    [tableRef] is given to no element, so that [handleScroll] returns at
    its first guard.  When 0 and the page size 50 survive printing and
    [parseInt], and the conditions survive [JSON.stringify] and
    [JSON.parse], the table shows, after the initial load and any number
    of scroll events, the first 50 of the filtered and sorted employees,
    with the page number 0, the number of all filtered employees as the
    total, and [hasMore] if there are more than 50 of them. *)
Theorem table_shows_first_page (employees : list record)
    (sortField sortOrder : option string) (filters : list Filter) (logic : string)
    (n : nat) :
  parseInt (numberText 0) = Some 0 →
  parseInt (numberText 50) = Some 50 →
  (filters ≠ [] → stringify filters ≠ "" ∧ parse (stringify filters) = filters) →
  afterScrolls numberText parseInt stringify parse n employees sortField sortOrder
    filters logic
  = let rows :=
      applySort (applyFilters employees (Some filters) (textOr (Some logic) "AND"))
        sortField (textOr sortOrder "asc") in
    Table.mk (take 50 rows) false (50 <? Z.of_nat (length rows)) 0
      (Z.of_nat (length rows)).
Proof.
  intros H0' H50 Hjson. rewrite afterScrolls_first_load.
  unfold loadData, fetchPage. simpl Table.loading. cbv iota.
  rewrite serveRecords_fetchRecordsParams;
    [| lia | exact H0' | exact H50 | exact Hjson].
  unfold getRecords. cbv zeta.
  rewrite paginate_data by lia. reflexivity.
Qed.
End ClientFacts.

(** ** Instances of the further properties, on [asciiEngine] *)

Section OfficeInstances.
Import Office.
Local Existing Instance asciiEngine.
Local Existing Instance v8ArraySort.
Local Existing Instance v8ArraySort_contract.

Lemma staff_numeric : numericField "age" staff.
Proof.
  intros r Hr. apply list_elem_of_In in Hr. simpl in Hr.
  destruct Hr as [<- | [<- | []]]; eexists; vm_compute; reflexivity.
Defined.

Lemma staff_distinct : distinctKeys "age" staff.
Proof.
  intros a b Ha Hb Hkey.
  apply list_elem_of_In in Ha. apply list_elem_of_In in Hb. simpl in Ha, Hb.
  destruct Ha as [<- | [<- | []]], Hb as [<- | [<- | []]];
    try reflexivity; vm_compute in Hkey; discriminate.
Defined.

Lemma staff_have_first_names :
  ∀ r, r ∈ staff → absent (prop r "firstName") = false.
Proof.
  intros r Hr. apply list_elem_of_In in Hr. simpl in Hr.
  destruct Hr as [<- | [<- | []]]; vm_compute; reflexivity.
Defined.

Lemma store_ids_unique : NoDup (map Preset.id (presets store)).
Proof.
  simpl. apply NoDup_cons. split.
  - intros Hin. apply list_elem_of_singleton in Hin. discriminate.
  - apply NoDup_singleton.
Defined.

Lemma evalCondition_text_operators_witness :
  absent (prop Eve (field firstNameContainsV)) = false
  ∧ (evalCondition Eve firstNameContainsV = true
     ↔ ∃ pre post,
         toLowerCase (toString (prop Eve (field firstNameContainsV)))
         = pre +:+ toLowerCase (toString (value firstNameContainsV)) +:+ post).
Proof.
  split; [vm_compute; reflexivity|].
  apply (evalCondition_text_operators Eve firstNameContainsV);
    [vm_compute; reflexivity | reflexivity].
Defined.

Lemma evalCondition_numeric_witness :
  absent (prop Eve "age") = false
  ∧ toNumber (prop Eve "age") = Fin (inject_Z 41)
  ∧ toNumber (VStr "40") = Fin (inject_Z 40)
  ∧ (evalCondition Eve (mkFilter "age" "<" (VStr "40")) = true
     ↔ (inject_Z 41 < inject_Z 40)%Q).
Proof.
  split; [vm_compute; reflexivity|].
  split; [vm_compute; reflexivity|].
  split; [vm_compute; reflexivity|].
  apply (evalCondition_numeric Eve "age" (VStr "40") (inject_Z 41) (inject_Z 40));
    vm_compute; reflexivity.
Defined.

Lemma evalCondition_numeric_NaN_witness :
  operator ageAboveAbc ∈ [">"; "<"; ">="; "<="]
  ∧ toNumber (value ageAboveAbc) = NaN
  ∧ evalCondition Eve ageAboveAbc = false.
Proof.
  split; [left|]. split; [vm_compute; reflexivity|].
  apply (evalCondition_numeric_NaN Eve ageAboveAbc); [left|].
  left. vm_compute. reflexivity.
Defined.

Lemma applyFilters_OR_union_witness :
  [firstNameContainsV] ≠ [] ∧ [ageBelow40] ≠ []
  ∧ (Dan ∈ applyFilters staff (Some ([firstNameContainsV] ++ [ageBelow40])%list) "OR"
     ↔ Dan ∈ applyFilters staff (Some [firstNameContainsV]) "OR"
       ∨ Dan ∈ applyFilters staff (Some [ageBelow40]) "OR").
Proof.
  split; [discriminate|]. split; [discriminate|].
  apply (applyFilters_OR_union staff [firstNameContainsV] [ageBelow40] Dan);
    discriminate.
Defined.

Lemma addFilter_blank_witness :
  toLowerCase "" = ""
  ∧ applyFilters staff (Some (App.addFilter [ageBelow40])) "AND"
    = applyFilters staff (Some [ageBelow40]) "AND"
  ∧ applyFilters staff (Some (App.addFilter [ageBelow40])) "OR" = staff.
Proof.
  split; [reflexivity|].
  apply (addFilter_blank staff [ageBelow40]);
    [reflexivity | exact staff_have_first_names].
Defined.

Lemma applySort_numeric_sorted_witness :
  "age" ≠ ""
  ∧ StronglySorted (λ a b, (keyOf "age" b <= keyOf "age" a)%Q)
      (applySort staff (Some "age") "desc").
Proof.
  split; [discriminate|].
  apply (applySort_numeric_sorted staff "age"); [discriminate | exact staff_numeric].
Defined.

Lemma applySort_desc_rev_asc_witness :
  "age" ≠ ""
  ∧ applySort staff (Some "age") "desc" = rev (applySort staff (Some "age") "asc").
Proof.
  split; [discriminate|].
  apply (applySort_desc_rev_asc staff "age");
    [discriminate | exact staff_numeric | exact staff_distinct].
Defined.

Lemma paginate_page_size_witness :
  0 ≤ 1 ∧ 0 < 1
  ∧ Z.of_nat (length (data (paginate staff 1 1)))
    = Z.min 1 (Z.max 0 (Z.of_nat (length staff) - 1 * 1)).
Proof.
  split; [lia | split; [lia|]].
  destruct (paginate_page_size staff 1 1) as [Hlen _]; [lia | lia | exact Hlen].
Defined.

Lemma paginate_lookup_witness :
  0 ≤ 1 ∧ 0 < 1
  ∧ data (paginate staff 1 1) !! 0%nat
    = if (Z.of_nat 0 <? 1) then staff !! (Z.to_nat (1 * 1) + 0)%nat else None.
Proof.
  split; [lia | split; [lia|]].
  apply (paginate_lookup staff 1 1 0); lia.
Defined.

Lemma Dan_on_first_page :
  Dan ∈ data (getRecords staff 0 1 (Some "age") "asc" (Some [ageBelow40]) "AND").
Proof. vm_compute. left. Defined.

Lemma applySort_permutes_witness :
  applySort staff (Some "age") "asc" ≡ₚ staff
  ∧ length (applySort staff (Some "age") "desc") = length staff.
Proof.
  split.
  - exact (proj1 (applySort_permutes staff (Some "age") "asc")).
  - exact (proj2 (proj2 (applySort_permutes staff (Some "age") "desc"))).
Defined.

Lemma getRecords_sound_witness :
  Dan ∈ data (getRecords staff 0 1 (Some "age") "asc" (Some [ageBelow40]) "AND")
  ∧ Dan ∈ staff
  ∧ ([ageBelow40] ≠ [] → keepRecord [ageBelow40] "AND" Dan = true).
Proof.
  split; [exact Dan_on_first_page|].
  exact (getRecords_sound staff 0 1 (Some "age") "asc" [ageBelow40] "AND" Dan
           Dan_on_first_page).
Defined.

Lemma handleGetRecords_progress_witness :
  0 ≤ queryInt readInt firstOfOne "page" 0
  ∧ 0 ≤ queryInt readInt firstOfOne "limit" 50
  ∧ hasMore (handleGetRecords readInt staff firstOfOne []) = true
  ∧ data (handleGetRecords readInt staff firstOfOne []) ≠ [].
Proof.
  split; [vm_compute; discriminate|].
  split; [vm_compute; discriminate|].
  split; [vm_compute; reflexivity|].
  apply (handleGetRecords_progress readInt staff firstOfOne []);
    [vm_compute; discriminate | vm_compute; discriminate | vm_compute; reflexivity].
Defined.

Lemma store_ids_safe : safeIds (presets store).
Proof.
  intros p Hp. repeat (apply elem_of_cons in Hp; destruct Hp as [-> | Hp]);
    [vm_compute; reflexivity .. | apply elem_of_nil in Hp; contradiction].
Defined.

Lemma postPreset_fresh_id_witness :
  safeIds (presets store)
  ∧ Preset.id seniors < Preset.id (snd (postPreset store eves))
  ∧ Preset.id eves < Preset.id (snd (postPreset store eves)).
Proof.
  split; [exact store_ids_safe|].
  destruct (postPreset_fresh_id store eves store_ids_safe) as (Habove & _ & _).
  split; apply Habove; [left | right; left].
Defined.

Lemma deletePreset_postPreset_witness :
  safeIds (presets store)
  ∧ deletePreset (fst (postPreset store eves))
      (Some (Preset.id (snd (postPreset store eves)))) = store.
Proof.
  split; [exact store_ids_safe|].
  exact (deletePreset_postPreset store eves store_ids_safe).
Defined.

Lemma preset_ids_stay_unique_witness :
  safeIds (presets store)
  ∧ NoDup (map Preset.id (presets store))
  ∧ NoDup (map Preset.id (presets (fst (postPreset store seniors))))
  ∧ NoDup (map Preset.id (presets (putPresetDefault store (Some 1))))
  ∧ NoDup (map Preset.id (presets (deletePreset store (Some 1)))).
Proof.
  split; [exact store_ids_safe | split; [exact store_ids_unique|]].
  destruct (preset_ids_stay_unique store seniors (Some 1) store_ids_unique)
    as (Hpost & Hput & Hdelete).
  split; [exact (Hpost store_ids_safe) | split; assumption].
Defined.

Lemma putPresetDefault_single_witness :
  NoDup (map Preset.id (presets store))
  ∧ (1 ∈ map Preset.id (presets store) →
     ∃ p, App.findDefault (presets (putPresetDefault store (Some 1))) = Some p
          ∧ Preset.id p = 1).
Proof.
  split; [exact store_ids_unique|].
  apply (putPresetDefault_single store 1 store_ids_unique).
Defined.

Lemma handleSort_cycle_witness :
  App.validSort (App.mkSortState None None)
  ∧ App.validSort (App.handleSort (App.mkSortState None None) "age").
Proof.
  split; [exact I|].
  apply (handleSort_cycle (App.mkSortState None None) "age"). exact I.
Defined.

Lemma sentFilters_codec :
  sentFilters ≠ [] →
  stringifySent sentFilters ≠ "" ∧ parseSent (stringifySent sentFilters) = sentFilters.
Proof. intros _. split; [discriminate | reflexivity]. Defined.

Lemma fetchRecords_round_trip_witness :
  50 ≠ 0
  ∧ readInt (printZ 1) = Some 1
  ∧ readInt (printZ 50) = Some 50
  ∧ serveRecords readInt parseSent staff
      (fetchRecordsParams printZ stringifySent 1 50 (Some "age") (Some "desc")
         (Some sentFilters) (Some "OR"))
    = getRecords staff 1 50 (Some "age") "desc" (Some sentFilters) "OR".
Proof.
  split; [discriminate|].
  split; [vm_compute; reflexivity|].
  split; [vm_compute; reflexivity|].
  apply (fetchRecords_round_trip printZ readInt stringifySent parseSent staff 1 50
           (Some "age") (Some "desc") sentFilters (Some "OR"));
    [discriminate | vm_compute; reflexivity | vm_compute; reflexivity
    | exact sentFilters_codec].
Defined.

Lemma table_shows_first_page_witness :
  readInt (printZ 0) = Some 0
  ∧ readInt (printZ 50) = Some 50
  ∧ afterScrolls printZ readInt stringifySent parseSent 3 staff (Some "age")
      (Some "asc") sentFilters "AND"
    = Table.mk [Dan] false false 0 1.
Proof.
  split; [vm_compute; reflexivity|].
  split; [vm_compute; reflexivity|].
  rewrite (table_shows_first_page printZ readInt stringifySent parseSent staff
             (Some "age") (Some "asc") sentFilters "AND" 3);
    [vm_compute; reflexivity | vm_compute; reflexivity | vm_compute; reflexivity
    | exact sentFilters_codec].
Defined.

(** The store after a POST, a PUT default and a DELETE. *)
Example store_after_requests :
  map Preset.id (presets (fst (postPreset store seniors))) = [1; 4; 5]
  ∧ map Preset.isDefault (presets (putPresetDefault store (Some 1))) = [true; false]
  ∧ map Preset.isDefault (presets (putPresetDefault store None)) = [false; false]
  ∧ map Preset.id (presets (deletePreset store (Some 4))) = [1].
Proof. repeat split; vm_compute; reflexivity. Qed.
End OfficeInstances.
